(** * Allocation engines of the repository: parking lot and package lockers

    Shallow embedding of [src/parking_lot.py] and
    [src/locker_and_packages.py], followed by the properties of the
    allocation strategies and of the allocate / release / provision
    operations.

    Python objects that are mutated in place and reached through several
    references (parking spots inside levels, lockers inside the manager's
    two dictionaries, the singleton manager itself) are modelled by
    references into explicit stores:
    - a parking spot is named by its position [(level index, spot index)]
      in the lot, the order in which spots were declared;
    - a locker is named by its index in a heap of lockers;
    - a locker manager is named by its index in a heap of managers. *)

From Stdlib Require Import ZArith String.
From stdpp Require Import base option list strings gmap.

Local Open Scope string_scope.
Local Open Scope list_scope.

(** ** Exceptions

    The only exception the modelled code can raise is the [KeyError] of a
    dictionary subscript. *)

Inductive Exn : Type :=
  | KeyError (key : string).

Inductive result (A : Type) : Type :=
  | Ok (a : A)
  | Raise (e : Exn).

Arguments Ok {A} a.
Arguments Raise {A} e.

Definition rbind {A B : Type} (m : result A) (k : A -> result B) : result B :=
  match m with
  | Ok a => k a
  | Raise e => Raise e
  end.

Notation "'let*' x := m 'in' k" := (rbind m (fun x => k))
  (at level 10, x name, m at level 100, k at level 200).

(** ** Parking lot ([src/parking_lot.py]) *)

Module Parking.

(** [Vehicle] and its subclasses.  [Vehicle] declares no abstract method,
    so a vehicle that is neither a [Car] nor a [Motorcycle] can exist. *)
Inductive VehicleClass : Type :=
  | Car
  | Motorcycle
  | OtherVehicle.

Record Vehicle : Type := mkVehicle {
  vehicle_class : VehicleClass;
  license_plate : string
}.

Record ParkingSpot : Type := mkSpot {
  spot_id : string;
  size : string;
  distance_to_entrance : Z;
  vehicle : option Vehicle
}.

(** [ParkingSpot.__init__] *)
Definition ParkingSpot_init (sid sz : string) (d : Z) : ParkingSpot :=
  {| spot_id := sid; size := sz; distance_to_entrance := d; vehicle := None |}.

Definition is_available (spot : ParkingSpot) : bool :=
  match vehicle spot with
  | None => true
  | Some _ => false
  end.

(** [ParkingSpot.park_vehicle] *)
Definition spot_park_vehicle (v : Vehicle) (spot : ParkingSpot) : ParkingSpot :=
  {| spot_id := spot_id spot; size := size spot;
     distance_to_entrance := distance_to_entrance spot; vehicle := Some v |}.

(** [ParkingSpot.remove_vehicle]: the spot after the call (the removed
    vehicle is the old [vehicle] field). *)
Definition spot_remove_vehicle (spot : ParkingSpot) : ParkingSpot :=
  {| spot_id := spot_id spot; size := size spot;
     distance_to_entrance := distance_to_entrance spot; vehicle := None |}.

Record ParkingLevel : Type := mkLevel {
  level_id : string;
  spots : list ParkingSpot
}.

(** [ParkingLevel.add_spot] *)
Definition add_spot (spot : ParkingSpot) (level : ParkingLevel) : ParkingLevel :=
  {| level_id := level_id level; spots := spots level ++ [spot] |}.

(** [ParkingLot.levels] *)
Abbreviation ParkingLot := (list ParkingLevel) (only parsing).

(** A reference to a spot object: level index and index in the level. *)
Abbreviation SpotRef := (nat * nat)%type (only parsing).

Definition lookup_spot (levels : ParkingLot) (r : SpotRef) : option ParkingSpot :=
  match levels !! r.1 with
  | Some level => spots level !! r.2
  | None => None
  end.

Definition update_spot (f : ParkingSpot -> ParkingSpot) (r : SpotRef)
    (levels : ParkingLot) : ParkingLot :=
  alter (fun level =>
           {| level_id := level_id level;
              spots := alter f r.2 (spots level) |}) r.1 levels.

(** *** The three strategies *)

Inductive Strategy : Type :=
  | FirstAvailableStrategy
  | BestFitStrategy
  | ClosestToEntranceStrategy.

Definition in_compact_large (sz : string) : bool :=
  String.eqb sz "compact" || String.eqb sz "large".

(** [FirstAvailableStrategy._can_fit] *)
Definition FirstAvailable_can_fit (v : Vehicle) (spot : ParkingSpot) : bool :=
  match vehicle_class v with
  | Motorcycle => true
  | Car => in_compact_large (size spot)
  | OtherVehicle => false
  end.

(** [BestFitStrategy._can_fit] *)
Definition BestFit_can_fit (v : Vehicle) (spot : ParkingSpot) : bool :=
  match vehicle_class v with
  | Motorcycle => true
  | Car => in_compact_large (size spot)
  | OtherVehicle => false
  end.

(** [ClosestToEntranceStrategy._can_fit] *)
Definition Closest_can_fit (v : Vehicle) (spot : ParkingSpot) : bool :=
  match vehicle_class v with
  | Motorcycle => true
  | Car => in_compact_large (size spot)
  | OtherVehicle => false
  end.

Definition can_fit (s : Strategy) : Vehicle -> ParkingSpot -> bool :=
  match s with
  | FirstAvailableStrategy => FirstAvailable_can_fit
  | BestFitStrategy => BestFit_can_fit
  | ClosestToEntranceStrategy => Closest_can_fit
  end.

(** What a strategy hands back: the spot object (its reference) together
    with its fields at the time of the scan. *)
Abbreviation Found := (nat * nat * ParkingSpot)%type (only parsing).

(** [FirstAvailableStrategy.find_spot]: the inner and the outer loop. *)
Fixpoint first_available_spots (v : Vehicle) (li si : nat)
    (ss : list ParkingSpot) : option Found :=
  match ss with
  | [] => None
  | spot :: rest =>
      if is_available spot && FirstAvailable_can_fit v spot
      then Some ((li, si), spot)
      else first_available_spots v li (S si) rest
  end.

Fixpoint first_available_levels (v : Vehicle) (li : nat)
    (levels : list ParkingLevel) : option Found :=
  match levels with
  | [] => None
  | level :: rest =>
      match first_available_spots v li 0 (spots level) with
      | Some f => Some f
      | None => first_available_levels v (S li) rest
      end
  end.

(** The dictionary literal of [BestFitStrategy._is_better_spot]. *)
Definition size_priority (sz : string) : option Z :=
  if String.eqb sz "motorcycle" then Some 0%Z
  else if String.eqb sz "compact" then Some 1%Z
  else if String.eqb sz "large" then Some 2%Z
  else None.

Definition size_priority_get (sz : string) : result Z :=
  match size_priority sz with
  | Some p => Ok p
  | None => Raise (KeyError sz)
  end.

(** [BestFitStrategy._is_better_spot]; the left subscript is evaluated
    first. *)
Definition is_better_spot (spot best_spot : ParkingSpot) : result bool :=
  let* a := size_priority_get (size spot) in
  let* b := size_priority_get (size best_spot) in
  Ok (a <? b)%Z.

(** [BestFitStrategy.find_spot] *)
Fixpoint best_fit_spots (v : Vehicle) (li si : nat) (ss : list ParkingSpot)
    (best_spot : option Found) : result (option Found) :=
  match ss with
  | [] => Ok best_spot
  | spot :: rest =>
      if is_available spot && BestFit_can_fit v spot then
        match best_spot with
        | None => best_fit_spots v li (S si) rest (Some ((li, si), spot))
        | Some (_, b) =>
            let* better := is_better_spot spot b in
            if (better : bool)
            then best_fit_spots v li (S si) rest (Some ((li, si), spot))
            else best_fit_spots v li (S si) rest best_spot
        end
      else best_fit_spots v li (S si) rest best_spot
  end.

Fixpoint best_fit_levels (v : Vehicle) (li : nat) (levels : list ParkingLevel)
    (best_spot : option Found) : result (option Found) :=
  match levels with
  | [] => Ok best_spot
  | level :: rest =>
      let* best' := best_fit_spots v li 0 (spots level) best_spot in
      best_fit_levels v (S li) rest best'
  end.

(** [ClosestToEntranceStrategy.find_spot] *)
Fixpoint closest_spots (v : Vehicle) (li si : nat) (ss : list ParkingSpot)
    (closest_spot : option Found) : option Found :=
  match ss with
  | [] => closest_spot
  | spot :: rest =>
      if is_available spot && Closest_can_fit v spot then
        match closest_spot with
        | None => closest_spots v li (S si) rest (Some ((li, si), spot))
        | Some (_, c) =>
            if (distance_to_entrance spot <? distance_to_entrance c)%Z
            then closest_spots v li (S si) rest (Some ((li, si), spot))
            else closest_spots v li (S si) rest closest_spot
        end
      else closest_spots v li (S si) rest closest_spot
  end.

Fixpoint closest_levels (v : Vehicle) (li : nat) (levels : list ParkingLevel)
    (closest_spot : option Found) : option Found :=
  match levels with
  | [] => closest_spot
  | level :: rest =>
      closest_levels v (S li) rest (closest_spots v li 0 (spots level) closest_spot)
  end.

(** Dispatch on the strategy object ([allocation_strategy.find_spot]). *)
Definition find_spot (s : Strategy) (v : Vehicle) (levels : ParkingLot)
    : result (option Found) :=
  match s with
  | FirstAvailableStrategy => Ok (first_available_levels v 0 levels)
  | BestFitStrategy => best_fit_levels v 0 levels None
  | ClosestToEntranceStrategy => Ok (closest_levels v 0 levels None)
  end.

(** *** The controller *)

Record ParkingLotController : Type := mkController {
  parking_lot : ParkingLot;
  allocation_strategy : Strategy
}.

(** [ParkingLotController.__init__] *)
Definition ParkingLotController_init (s : Strategy) : ParkingLotController :=
  {| parking_lot := []; allocation_strategy := s |}.

(** [ParkingLotController.add_parking_spot] on the list of levels: the
    loop returns at the first level with the id; the code after the loop
    is the empty-list case. *)
Fixpoint add_parking_spot_levels (lid sid sz : string) (d : Z)
    (levels : list ParkingLevel) : list ParkingLevel :=
  match levels with
  | [] => [ add_spot (ParkingSpot_init sid sz d) {| level_id := lid; spots := [] |} ]
  | level :: rest =>
      if String.eqb (level_id level) lid
      then add_spot (ParkingSpot_init sid sz d) level :: rest
      else level :: add_parking_spot_levels lid sid sz d rest
  end.

Definition add_parking_spot (lid sid sz : string) (d : Z)
    (c : ParkingLotController) : ParkingLotController :=
  {| parking_lot := add_parking_spot_levels lid sid sz d (parking_lot c);
     allocation_strategy := allocation_strategy c |}.

Definition parked_message (v : Vehicle) (spot : ParkingSpot) : string :=
  ("Vehicle " ++ license_plate v ++ " parked in spot " ++ spot_id spot)%string.

Definition no_spot_message : string := "No available spot".

(** [ParkingLotController.park_vehicle]: the returned string and the
    controller afterwards. *)
Definition park_vehicle (v : Vehicle) (c : ParkingLotController)
    : result (string * ParkingLotController) :=
  let* found := find_spot (allocation_strategy c) v (parking_lot c) in
  match found with
  | Some (r, spot) =>
      Ok (parked_message v spot,
          {| parking_lot := update_spot (spot_park_vehicle v) r (parking_lot c);
             allocation_strategy := allocation_strategy c |})
  | None => Ok (no_spot_message, c)
  end.

(** The scan of [ParkingLotController.unpark_vehicle]. *)
Fixpoint unpark_spots (sid : string) (li si : nat) (ss : list ParkingSpot)
    : option Found :=
  match ss with
  | [] => None
  | spot :: rest =>
      if String.eqb (spot_id spot) sid && negb (is_available spot)
      then Some ((li, si), spot)
      else unpark_spots sid li (S si) rest
  end.

Fixpoint unpark_levels (sid : string) (li : nat) (levels : list ParkingLevel)
    : option Found :=
  match levels with
  | [] => None
  | level :: rest =>
      match unpark_spots sid li 0 (spots level) with
      | Some f => Some f
      | None => unpark_levels sid (S li) rest
      end
  end.

Definition removed_message (plate sid : string) : string :=
  ("Vehicle " ++ plate ++ " removed from spot " ++ sid)%string.

Definition not_found_message : string := "Spot not found or already empty".

(** [ParkingLotController.unpark_vehicle] *)
Definition unpark_vehicle (sid : string) (c : ParkingLotController)
    : string * ParkingLotController :=
  match unpark_levels sid 0 (parking_lot c) with
  | Some (r, spot) =>
      (removed_message (from_option license_plate "" (vehicle spot)) sid,
       {| parking_lot := update_spot spot_remove_vehicle r (parking_lot c);
          allocation_strategy := allocation_strategy c |})
  | None => (not_found_message, c)
  end.

(** Repeated sequential calls of [park_vehicle] by one caller; the
    returned strings are collected in call order. *)
Fixpoint park_vehicles (vs : list Vehicle) (c : ParkingLotController)
    : result (list string * ParkingLotController) :=
  match vs with
  | [] => Ok ([], c)
  | v :: rest =>
      let* r1 := park_vehicle v c in
      let* r2 := park_vehicles rest r1.2 in
      Ok (r1.1 :: r2.1, r2.2)
  end.

(** *** Declaration order

    All spots of the lot with their references, level after level. *)
Fixpoint enum_spots (li si : nat) (ss : list ParkingSpot) : list Found :=
  match ss with
  | [] => []
  | spot :: rest => ((li, si), spot) :: enum_spots li (S si) rest
  end.

Fixpoint enum_levels (li : nat) (levels : list ParkingLevel) : list Found :=
  match levels with
  | [] => []
  | level :: rest => enum_spots li 0 (spots level) ++ enum_levels (S li) rest
  end.

Definition all_spots (levels : ParkingLot) : list Found := enum_levels 0 levels.

Definition free_fit (s : Strategy) (v : Vehicle) (f : Found) : bool :=
  is_available f.2 && can_fit s v f.2.

(** The free and compatible spots, in declaration order. *)
Definition candidates (s : Strategy) (v : Vehicle) (levels : ParkingLot)
    : list Found :=
  filter (fun f => free_fit s v f = true) (all_spots levels).

(** The compatibility rule in the words of the specification: a
    two-wheeled request fits any capacity class, a four-wheeled request
    fits the classes compact and large, nothing else fits. *)
Definition fits (k : VehicleClass) (capacity_class : string) : bool :=
  match k with
  | Motorcycle => true
  | Car => bool_decide (capacity_class = "compact" \/ capacity_class = "large")
  | OtherVehicle => false
  end.

(** Lots built with [add_parking_spot], used as concrete inputs. *)
Definition provision (spots_to_add : list (string * string * string * Z))
    (c : ParkingLotController) : ParkingLotController :=
  foldl (fun c a => add_parking_spot a.1.1.1 a.1.1.2 a.1.2 a.2 c) c spots_to_add.

(** The lot of the usage section of the file. *)
Definition usage_lot : ParkingLot :=
  parking_lot
    (provision [("Level1", "A1", "compact", 10%Z); ("Level1", "A2", "large", 5%Z);
                ("Level1", "A3", "motorcycle", 15%Z);
                ("Level2", "B1", "compact", 20%Z); ("Level2", "B2", "large", 25%Z)]
       (ParkingLotController_init FirstAvailableStrategy)).

(** Three levels with one compact spot each, at distances 10, 5, 15. *)
Definition three_levels_lot : ParkingLot :=
  parking_lot
    (provision [("L1", "A1", "compact", 10%Z); ("L2", "B1", "compact", 5%Z);
                ("L3", "C1", "compact", 15%Z)]
       (ParkingLotController_init ClosestToEntranceStrategy)).

(** A level whose first spot has a size that is no key of
    [size_priority]. *)
Definition oversize_lot : ParkingLot :=
  parking_lot
    (provision [("L1", "X1", "xl", 1%Z); ("L1", "X2", "compact", 2%Z)]
       (ParkingLotController_init BestFitStrategy)).

(** One level with two compact spots. *)
Definition two_compact_lot : ParkingLot :=
  parking_lot
    (provision [("L1", "A1", "compact", 10%Z); ("L1", "A2", "compact", 20%Z)]
       (ParkingLotController_init FirstAvailableStrategy)).

(** The test of the scan of [unpark_vehicle]. *)
Definition occupied_with_id (sid : string) (f : nat * nat * ParkingSpot) : bool :=
  String.eqb (spot_id f.2) sid && negb (is_available f.2).

(** One level with two spots of the same id, the first one occupied. *)
Definition same_id_lot : ParkingLot :=
  update_spot (spot_park_vehicle (mkVehicle Car "ABC123")) (0, 0)
    (parking_lot
       (provision [("L1", "A1", "compact", 10%Z); ("L1", "A1", "large", 7%Z)]
          (ParkingLotController_init FirstAvailableStrategy))).

(** The references of the empty spots, in declaration order. *)
Definition free_spots (levels : ParkingLot) : list (nat * nat) :=
  (filter (fun f : nat * nat * ParkingSpot => vehicle f.2 = None)
     (all_spots levels)).*1.

(** The effect of [update_spot] on one entry of [all_spots]. *)
Definition touch (g : ParkingSpot -> ParkingSpot) (r : nat * nat)
    (f : nat * nat * ParkingSpot) : nat * nat * ParkingSpot :=
  if decide (f.1 = r) then (f.1, g f.2) else f.

(** The keys the two ranking strategies compare. *)
Definition distance_of (f : Found) : Z := distance_to_entrance f.2.

Definition known_size (f : Found) : Prop := is_Some (size_priority (size f.2)).

(** The priority of a spot whose size is a key of the dictionary. *)
Definition priority_of (f : Found) : Z := default 0%Z (size_priority (size f.2)).

(** The scan of [BestFitStrategy.find_spot] on the list of the free
    fitting spots: one step, and the whole scan. *)
Definition best_fit_step (best_spot : option (nat * nat * ParkingSpot))
    (f : nat * nat * ParkingSpot) : result (option (nat * nat * ParkingSpot)) :=
  match best_spot with
  | None => Ok (Some f)
  | Some b =>
      let* better := is_better_spot f.2 b.2 in
      Ok (if (better : bool) then Some f else best_spot)
  end.

Fixpoint best_fit_fold (l : list (nat * nat * ParkingSpot))
    (best_spot : option (nat * nat * ParkingSpot))
    : result (option (nat * nat * ParkingSpot)) :=
  match l with
  | [] => Ok best_spot
  | f :: rest =>
      let* best' := best_fit_step best_spot f in
      best_fit_fold rest best'
  end.

(** The fields of a spot that are set at construction. *)
Definition spot_description (spot : ParkingSpot) : string * string * Z :=
  (spot_id spot, size spot, distance_to_entrance spot).

End Parking.

(** ** Package lockers ([src/locker_and_packages.py]) *)

Module Lockers.

Inductive PackageSize : Type :=
  | SMALL
  | MEDIUM
  | LARGE.

#[global] Instance PackageSize_eq_dec : EqDecision PackageSize.
Proof. solve_decision. Defined.

(** [Package]; its [size] field is [package_size] here, since [Locker]
    has a field of the same name. *)
Record Package : Type := mkPackage {
  package_size : PackageSize;
  customer_id : string
}.

(** [Locker]; its [size] field is [locker_size]. *)
Record Locker : Type := mkLocker {
  locker_id : string;
  locker_size : PackageSize;
  package : option Package
}.

Definition is_available (l : Locker) : bool :=
  match package l with
  | None => true
  | Some _ => false
  end.

(** [Locker.store_package] *)
Definition Locker_store_package (p : Package) (l : Locker) : Locker :=
  {| locker_id := locker_id l; locker_size := locker_size l; package := Some p |}.

(** [Locker.retrieve_package]: the locker after the call (the returned
    package is the old [package] field). *)
Definition Locker_retrieve_package (l : Locker) : Locker :=
  {| locker_id := locker_id l; locker_size := locker_size l; package := None |}.

(** A reference to a locker object: its index in the heap of lockers. *)
Abbreviation LockerRef := nat (only parsing).

(** [lockers_by_size] is a [defaultdict(list)]; the order in which its
    keys were inserted is the order in which [items()] yields them. *)
Abbreviation SizeDict := (list (PackageSize * list nat)) (only parsing).

Record LockerManager : Type := mkManager {
  lockers_by_size : SizeDict;
  lockers_by_customer : gmap string LockerRef
}.

(** The manager as [__new__] creates it. *)
Definition LockerManager_empty : LockerManager :=
  {| lockers_by_size := []; lockers_by_customer := ∅ |}.

(** One manager together with the locker objects it refers to. *)
Record State : Type := mkState {
  heap : list Locker;
  manager : LockerManager
}.

Definition initial_state : State :=
  {| heap := []; manager := LockerManager_empty |}.

Fixpoint dict_get (k : PackageSize) (d : SizeDict) : option (list LockerRef) :=
  match d with
  | [] => None
  | (k', ls) :: rest => if decide (k' = k) then Some ls else dict_get k rest
  end.

(** [d[k]] on the [defaultdict]: a missing key is inserted with an empty
    list. *)
Definition dict_getitem (k : PackageSize) (d : SizeDict)
    : list LockerRef * SizeDict :=
  match dict_get k d with
  | Some ls => (ls, d)
  | None => ([], d ++ [(k, [])])
  end.

(** [d[k].append(r)] *)
Fixpoint dict_append (k : PackageSize) (r : LockerRef) (d : SizeDict) : SizeDict :=
  match d with
  | [] => [(k, [r])]
  | (k', ls) :: rest =>
      if decide (k' = k) then (k', ls ++ [r]) :: rest
      else (k', ls) :: dict_append k r rest
  end.

(** [Locker(locker_id, size)]: a new object in the heap. *)
Definition Locker_init (lid : string) (sz : PackageSize) (h : list Locker)
    : LockerRef * list Locker :=
  (length h, h ++ [ {| locker_id := lid; locker_size := sz; package := None |} ]).

(** [LockerManager.add_locker] *)
Definition add_locker (r : LockerRef) (st : State) : State :=
  match heap st !! r with
  | Some l =>
      {| heap := heap st;
         manager :=
           {| lockers_by_size :=
                dict_append (locker_size l) r (lockers_by_size (manager st));
              lockers_by_customer := lockers_by_customer (manager st) |} |}
  | None => st
  end.

Definition locker_available (h : list Locker) (r : LockerRef) : bool :=
  match h !! r with
  | Some l => is_available l
  | None => false
  end.

(** The list comprehension of [find_available_locker]. *)
Definition available_lockers (h : list Locker) (ls : list LockerRef)
    : list LockerRef :=
  filter (fun r => locker_available h r = true) ls.

(** [LockerManager.find_available_locker] *)
Definition find_available_locker (sz : PackageSize) (st : State)
    : option LockerRef * State :=
  let '(ls, d) := dict_getitem sz (lockers_by_size (manager st)) in
  (head (available_lockers (heap st) ls),
   {| heap := heap st;
      manager := {| lockers_by_size := d;
                    lockers_by_customer := lockers_by_customer (manager st) |} |}).

(** [LockerManager.find_locker_by_customer] *)
Definition find_locker_by_customer (cid : string) (st : State) : option LockerRef :=
  lockers_by_customer (manager st) !! cid.

(** [LockerManager.store_package] *)
Definition store_package (r : LockerRef) (p : Package) (st : State) : State :=
  {| heap := alter (Locker_store_package p) r (heap st);
     manager :=
       {| lockers_by_size := lockers_by_size (manager st);
          lockers_by_customer :=
            <[customer_id p := r]> (lockers_by_customer (manager st)) |} |}.

(** [LockerManager.retrieve_package] *)
Definition retrieve_package (cid : string) (st : State) : option Package * State :=
  match lockers_by_customer (manager st) !! cid with
  | Some r =>
      (l ← heap st !! r; package l,
       {| heap := alter Locker_retrieve_package r (heap st);
          manager :=
            {| lockers_by_size := lockers_by_size (manager st);
               lockers_by_customer := delete cid (lockers_by_customer (manager st)) |} |})
  | None => (None, st)
  end.

Inductive Strategy : Type :=
  | FirstAvailableStrategy
  | MostAvailableStrategy.

(** The loop of [MostAvailableStrategy.allocate_locker]. *)
Fixpoint most_available_loop (h : list Locker) (items : SizeDict)
    (max_available : Z) (best_size : option PackageSize) : option PackageSize :=
  match items with
  | [] => best_size
  | (sz, ls) :: rest =>
      let available_count := Z.of_nat (length (available_lockers h ls)) in
      if (available_count >? max_available)%Z
      then most_available_loop h rest available_count (Some sz)
      else most_available_loop h rest max_available best_size
  end.

(** [allocate_locker] of the two strategies. *)
Definition allocate_locker (s : Strategy) (p : Package) (st : State)
    : option LockerRef * State :=
  match s with
  | FirstAvailableStrategy => find_available_locker (package_size p) st
  | MostAvailableStrategy =>
      match most_available_loop (heap st) (lockers_by_size (manager st)) (-1) None with
      | Some best_size => find_available_locker best_size st
      | None => (None, st)
      end
  end.

Definition no_locker_message : string := "No available locker".
Definition not_found_message : string := "Package not found".

(** [LockerController.receive_package], on the manager the controller
    holds. *)
Definition receive_package (s : Strategy) (p : Package) (st : State)
    : string * State :=
  let '(found, st1) := allocate_locker s p st in
  match found with
  | Some r =>
      let st2 := store_package r p st1 in
      (from_option locker_id "" (heap st2 !! r), st2)
  | None => (no_locker_message, st1)
  end.

(** [LockerController.retrieve_package], on the manager the controller
    holds. *)
Definition controller_retrieve_package (cid : string) (st : State)
    : (Package + string) * State :=
  let '(p, st1) := retrieve_package cid st in
  (match p with Some pkg => inl pkg | None => inr not_found_message end, st1).

(** *** The process: the singleton and the controllers *)

Abbreviation ManagerRef := nat (only parsing).

(** The heap of lockers, the heap of manager objects and the class
    attribute [LockerManager._instance]. *)
Record World : Type := mkWorld {
  lockers : list Locker;
  managers : list LockerManager;
  _instance : option ManagerRef
}.

Definition initial_world : World :=
  {| lockers := []; managers := []; _instance := None |}.

(** [LockerManager.__new__] *)
Definition LockerManager_new (w : World) : ManagerRef * World :=
  match _instance w with
  | None =>
      (length (managers w),
       {| lockers := lockers w;
          managers := managers w ++ [LockerManager_empty];
          _instance := Some (length (managers w)) |})
  | Some r => (r, w)
  end.

Record LockerController : Type := mkController {
  allocation_strategy : Strategy;
  locker_manager : ManagerRef
}.

(** [LockerController.__init__] *)
Definition LockerController_init (s : Strategy) (w : World)
    : LockerController * World :=
  let '(r, w') := LockerManager_new w in
  ({| allocation_strategy := s; locker_manager := r |}, w').

(** [LockerController.set_strategy] *)
Definition set_strategy (s : Strategy) (c : LockerController) : LockerController :=
  {| allocation_strategy := s; locker_manager := locker_manager c |}.

(** The manager object behind a reference, with the lockers. *)
Definition view (w : World) (r : ManagerRef) : option State :=
  m ← managers w !! r; Some {| heap := lockers w; manager := m |}.

Definition commit (w : World) (r : ManagerRef) (st : State) : World :=
  {| lockers := heap st;
     managers := <[r := manager st]> (managers w);
     _instance := _instance w |}.

Definition on_manager {A : Type} (r : ManagerRef) (dflt : A)
    (f : State -> A * State) (w : World) : A * World :=
  match view w r with
  | Some st => let '(a, st') := f st in (a, commit w r st')
  | None => (dflt, w)
  end.

(** The methods of a controller, run in the process. *)
Definition ctl_receive_package (c : LockerController) (p : Package) (w : World)
    : string * World :=
  on_manager (locker_manager c) no_locker_message
    (receive_package (allocation_strategy c) p) w.

Definition ctl_retrieve_package (c : LockerController) (cid : string) (w : World)
    : (Package + string) * World :=
  on_manager (locker_manager c) (inr not_found_message)
    (controller_retrieve_package cid) w.

(** [c.locker_manager.find_locker_by_customer(cid)] *)
Definition ctl_find_locker_by_customer (c : LockerController) (cid : string)
    (w : World) : option LockerRef :=
  st ← view w (locker_manager c); find_locker_by_customer cid st.

(** [LockerManager().add_locker(Locker(lid, sz))], as in the usage
    section of the file. *)
Definition provision_locker (lid : string) (sz : PackageSize) (st : State) : State :=
  let '(r, h) := Locker_init lid sz (heap st) in
  add_locker r {| heap := h; manager := manager st |}.

(** *** What a process can do with controllers *)

Inductive WorldOp : Type :=
  | NewController (s : Strategy)
  | AddLocker (lid : string) (sz : PackageSize)
  | Receive (c : LockerController) (p : Package)
  | Retrieve (c : LockerController) (cid : string).

(** [AddLocker lid sz] is [LockerManager().add_locker(Locker(lid, sz))]. *)
Definition world_step (w : World) (op : WorldOp) : World :=
  match op with
  | NewController s => (LockerController_init s w).2
  | AddLocker lid sz =>
      let '(r, w1) := LockerManager_new w in
      (on_manager r tt (fun st => (tt, provision_locker lid sz st)) w1).2
  | Receive c p => (ctl_receive_package c p w).2
  | Retrieve c cid => (ctl_retrieve_package c cid w).2
  end.

Definition world_run (ops : list WorldOp) (w : World) : World :=
  foldl world_step w ops.

(** The singleton, once created, is an object of the heap of managers. *)
Definition instance_valid (w : World) : Prop :=
  forall r, _instance w = Some r -> r < length (managers w).

(** *** Sequences of engine operations on one manager *)

Inductive Op : Type :=
  | Provision (lid : string) (sz : PackageSize)
  | Allocate (s : Strategy) (p : Package)
  | Release (cid : string).

Definition step (st : State) (op : Op) : State :=
  match op with
  | Provision lid sz => provision_locker lid sz st
  | Allocate s p => (receive_package s p st).2
  | Release cid => (controller_retrieve_package cid st).2
  end.

Definition run (ops : list Op) (st : State) : State := foldl step st ops.

(** No [Allocate] of the sequence is made for a customer who has an entry
    in [lockers_by_customer] at that moment. *)
Fixpoint no_double_allocate (ops : list Op) (st : State) : bool :=
  match ops with
  | [] => true
  | op :: rest =>
      match op with
      | Allocate _ p =>
          bool_decide (lockers_by_customer (manager st) !! customer_id p = None)
      | _ => true
      end && no_double_allocate rest (step st op)
  end.

(** The customer whose package is in the locker behind [r]. *)
Definition occupant (st : State) (r : LockerRef) : option string :=
  l ← heap st !! r; customer_id <$> package l.

(** The lockers the manager knows, in dictionary order. *)
Definition pool (st : State) : list LockerRef :=
  mjoin (snd <$> lockers_by_size (manager st)).

(** The references of the free lockers of the heap. *)
Definition free_lockers (st : State) : list LockerRef :=
  filter (fun r => locker_available (heap st) r = true) (seq 0 (length (heap st))).

(** The number of available lockers in the list of one size, as
    [MostAvailableStrategy] counts it, and its negation, the key under
    which the strategy picks a first minimum. *)
Definition free_count (h : list Locker) (ls : list nat) : Z :=
  Z.of_nat (length (available_lockers h ls)).

Definition neg_free_count (h : list Locker) (e : PackageSize * list nat) : Z :=
  (- free_count h e.2)%Z.

(** Every entry of [lockers_by_customer] points at a locker that holds
    a package of this customer. *)
Definition index_sound (st : State) : Prop :=
  forall c r, lockers_by_customer (manager st) !! c = Some r -> occupant st r = Some c.

(** Every occupied locker is the one [lockers_by_customer] records for
    the customer of its package. *)
Definition index_complete (st : State) : Prop :=
  forall c r, occupant st r = Some c -> lockers_by_customer (manager st) !! c = Some r.

(** [lockers_by_size] is a dictionary (its keys are distinct) and the
    list under a size holds lockers of this size. *)
Definition dict_wf (st : State) : Prop :=
  NoDup (lockers_by_size (manager st)).*1
  /\ forall k ls r, dict_get k (lockers_by_size (manager st)) = Some ls -> r ∈ ls ->
       locker_size <$> heap st !! r = Some k.

(** Two small lockers, and two packages received for one customer. *)
Definition double_allocate_ops : list Op :=
  [Provision "SMALL_0" SMALL; Provision "SMALL_1" SMALL;
   Allocate FirstAvailableStrategy (mkPackage SMALL "customer_1");
   Allocate FirstAvailableStrategy (mkPackage SMALL "customer_1")].

(** Two small lockers and packages for two customers, one retrieved. *)
Definition regular_ops : list Op :=
  [Provision "SMALL_0" SMALL; Provision "SMALL_1" SMALL;
   Allocate FirstAvailableStrategy (mkPackage SMALL "customer_1");
   Allocate MostAvailableStrategy (mkPackage SMALL "customer_2");
   Release "customer_1"].

(** The lockers the operations of a sequence create, in order. *)
Fixpoint provisioned (ops : list Op) : list (string * PackageSize) :=
  match ops with
  | [] => []
  | Provision lid sz :: rest => (lid, sz) :: provisioned rest
  | _ :: rest => provisioned rest
  end.

(** The lockers of one size, in the order of their creation. *)
Definition lockers_of_size (h : list Locker) (k : PackageSize) : list nat :=
  filter (fun r => locker_size <$> h !! r = Some k) (seq 0 (length h)).

(** The fields of a locker that are set at construction. *)
Definition locker_description (l : Locker) : string * PackageSize :=
  (locker_id l, locker_size l).

End Lockers.

(** ** Selection of a first minimum

    [first_min key l x]: [x] occurs in [l], no element of [l] has a smaller
    key, and every element before [x] has a strictly larger one. *)

Definition first_min {A : Type} (key : A -> Z) (l : list A) (x : A) : Prop :=
  exists l1 l2, l = l1 ++ x :: l2
    /\ Forall (fun y => (key x < key y)%Z) l1
    /\ Forall (fun y => (key x <= key y)%Z) l2.

(** One step of a scan that replaces the current best element only by a
    strictly smaller one. *)
Definition keep_min {A : Type} (key : A -> Z) (acc : option A) (x : A) : option A :=
  match acc with
  | None => Some x
  | Some b => if (key x <? key b)%Z then Some x else acc
  end.

Section KeepMin.
Context {A : Type} (key : A -> Z).

Lemma foldl_keep_min_snoc (l : list A) (acc : option A) (y : A) :
  foldl (keep_min key) acc (l ++ [y]) = keep_min key (foldl (keep_min key) acc l) y.
Proof. by rewrite foldl_app. Qed.

Lemma foldl_keep_min_nil_inv (l : list A) :
  foldl (keep_min key) None l = None -> l = [].
Proof.
  induction l as [|y l IH] using rev_ind; [done|].
  rewrite foldl_keep_min_snoc. unfold keep_min.
  destruct (foldl _ None l); [case_match|]; done.
Qed.

Lemma foldl_keep_min_first_min (l : list A) :
  l <> [] -> exists x, foldl (keep_min key) None l = Some x /\ first_min key l x.
Proof.
  induction l as [|y l IH] using rev_ind; [done|]. intros _.
  rewrite foldl_keep_min_snoc.
  destruct (decide (l = [])) as [->|Hne].
  { exists y. split; [done|]. exists [], []. by repeat split. }
  destruct (IH Hne) as (x & Hx & l1 & l2 & Hl & H1 & H2).
  rewrite Hx. unfold keep_min. destruct (key y <? key x)%Z eqn:Hlt.
  - apply Z.ltb_lt in Hlt. exists y. split; [done|].
    exists l, []. split; [done|]. split; [|constructor].
    rewrite Hl. apply Forall_app. split.
    + eapply Forall_impl; [exact H1|]. simpl. lia.
    + constructor; [lia|]. eapply Forall_impl; [exact H2|]. simpl. lia.
  - apply Z.ltb_ge in Hlt. exists x. split; [done|].
    exists l1, (l2 ++ [y]). split; [by rewrite Hl, <- app_assoc|].
    split; [done|]. apply Forall_app. split; [done|]. by constructor.
Qed.

Lemma first_min_elem_of (l : list A) (x : A) : first_min key l x -> x ∈ l.
Proof. intros (l1 & l2 & -> & _). set_solver. Qed.

Lemma first_min_le (l : list A) (x y : A) :
  first_min key l x -> y ∈ l -> (key x <= key y)%Z.
Proof.
  intros (l1 & l2 & -> & H1 & H2) Hy.
  rewrite Forall_forall in H1. rewrite Forall_forall in H2.
  apply elem_of_app in Hy as [Hy|Hy]; [apply H1 in Hy; lia|].
  apply elem_of_cons in Hy as [->|Hy]; [lia|]. by apply H2.
Qed.
End KeepMin.

(** ** The scans of the parking strategies, on the list of all spots *)

Section ParkingScans.
Import Parking.
Implicit Types (v : Vehicle) (levels : list ParkingLevel) (f : Found).

Lemma head_app_filter {A : Type} (l1 l2 : list A) :
  head (l1 ++ l2) = match head l1 with Some x => Some x | None => head l2 end.
Proof. by destruct l1. Qed.

(** Case analysis on whether the spot at the head of the scan is free and
    fits. *)
Ltac head_free_fit H :=
  rewrite filter_cons; case_decide as H;
  [|apply not_true_is_false in H];
  unfold free_fit in H; simpl in H; rewrite H.

Lemma first_available_spots_flat v li si ss :
  first_available_spots v li si ss
  = head (filter (fun f => free_fit FirstAvailableStrategy v f = true)
            (enum_spots li si ss)).
Proof.
  revert si. induction ss as [|spot rest IH]; intros si; [done|].
  simpl. head_free_fit E; [done|]. apply IH.
Qed.

Lemma first_available_levels_flat v li levels :
  first_available_levels v li levels
  = head (filter (fun f => free_fit FirstAvailableStrategy v f = true)
            (enum_levels li levels)).
Proof.
  revert li. induction levels as [|level rest IH]; intros li; [done|].
  simpl. rewrite filter_app, head_app_filter, <- first_available_spots_flat.
  destruct (first_available_spots v li 0 (spots level)); [done|]. apply IH.
Qed.

Lemma closest_spots_flat v li si ss acc :
  closest_spots v li si ss acc
  = foldl (keep_min distance_of) acc
      (filter (fun f => free_fit ClosestToEntranceStrategy v f = true)
         (enum_spots li si ss)).
Proof.
  revert si acc. induction ss as [|spot rest IH]; intros si acc; [done|].
  simpl. head_free_fit E; [|apply IH]. simpl.
  destruct acc as [[r c]|]; simpl; [|apply IH].
  unfold distance_of. simpl.
  destruct (distance_to_entrance spot <? distance_to_entrance c)%Z; apply IH.
Qed.

Lemma closest_levels_flat v li levels acc :
  closest_levels v li levels acc
  = foldl (keep_min distance_of) acc
      (filter (fun f => free_fit ClosestToEntranceStrategy v f = true)
         (enum_levels li levels)).
Proof.
  revert li acc. induction levels as [|level rest IH]; intros li acc; [done|].
  simpl. by rewrite filter_app, foldl_app, IH, closest_spots_flat.
Qed.

Lemma priority_of_known f p :
  size_priority (size f.2) = Some p -> priority_of f = p.
Proof. unfold priority_of. by intros ->. Qed.

Lemma is_better_spot_known (spot b : ParkingSpot) (r rb : SpotRef) :
  known_size (r, spot) -> known_size (rb, b) ->
  is_better_spot spot b = Ok (priority_of (r, spot) <? priority_of (rb, b))%Z.
Proof.
  intros [p Hp] [q Hq]. unfold is_better_spot, size_priority_get, priority_of.
  simpl in *. by rewrite Hp, Hq.
Qed.

Lemma keep_min_known acc f :
  (forall b, acc = Some b -> known_size b) -> known_size f ->
  forall b, keep_min priority_of acc f = Some b -> known_size b.
Proof.
  intros Hacc Hf b. unfold keep_min. destruct acc as [a|].
  - case_match; intros [= <-]; [done|]. by apply Hacc.
  - by intros [= <-].
Qed.

Lemma best_fit_spots_flat v li si ss acc :
  (forall b, acc = Some b -> known_size b) ->
  Forall known_size
    (filter (fun f => free_fit BestFitStrategy v f = true) (enum_spots li si ss)) ->
  best_fit_spots v li si ss acc
  = Ok (foldl (keep_min priority_of) acc
          (filter (fun f => free_fit BestFitStrategy v f = true)
             (enum_spots li si ss))).
Proof.
  revert si acc. induction ss as [|spot rest IH]; intros si acc Hacc Hall; [done|].
  simpl in *. revert Hall. head_free_fit E; intros Hall; [|by apply IH].
  apply Forall_cons in Hall as [Hk Hall].
  simpl. destruct acc as [[rb b]|]; simpl.
  - rewrite (is_better_spot_known spot b (li, si) rb) by eauto.
    unfold rbind.
    destruct (priority_of (li, si, spot) <? priority_of (rb, b))%Z;
      apply IH; try done; intros ? [= <-]; eauto.
  - apply IH; [|done]. by intros ? [= <-].
Qed.

Lemma foldl_keep_min_known acc (l : list Found) :
  (forall b, acc = Some b -> known_size b) -> Forall known_size l ->
  forall b, foldl (keep_min priority_of) acc l = Some b -> known_size b.
Proof.
  revert acc. induction l as [|f l IH]; intros acc Hacc Hall b; simpl.
  - apply Hacc.
  - apply Forall_cons in Hall as [Hf Hall].
    apply IH; [|done]. by apply keep_min_known.
Qed.

Lemma best_fit_levels_flat v li levels acc :
  (forall b, acc = Some b -> known_size b) ->
  Forall known_size
    (filter (fun f => free_fit BestFitStrategy v f = true) (enum_levels li levels)) ->
  best_fit_levels v li levels acc
  = Ok (foldl (keep_min priority_of) acc
          (filter (fun f => free_fit BestFitStrategy v f = true)
             (enum_levels li levels))).
Proof.
  revert li acc. induction levels as [|level rest IH]; intros li acc Hacc Hall; [done|].
  simpl in *. rewrite filter_app in *. apply Forall_app in Hall as [H1 H2].
  rewrite best_fit_spots_flat by done. simpl.
  rewrite foldl_app. apply IH; [|done].
  by apply foldl_keep_min_known.
Qed.

End ParkingScans.

(** ** Spot references and declaration order *)

Section ParkingRefs.
Import Parking.
Implicit Types (levels : list ParkingLevel) (r : nat * nat) (s : ParkingSpot).

Lemma elem_of_enum_spots li si ss r s :
  (r, s) ∈ enum_spots li si ss
  <-> r.1 = li /\ si <= r.2 /\ ss !! (r.2 - si) = Some s.
Proof.
  revert si. induction ss as [|spot rest IH]; intros si; simpl.
  - rewrite elem_of_nil. split; [done|]. by intros (_ & _ & ?).
  - rewrite elem_of_cons, IH. destruct r as [a b]. simpl. split.
    + intros [[= -> -> ->]|(-> & Hle & Hl)].
      * by rewrite Nat.sub_diag.
      * replace (b - si) with (S (b - S si)) by lia. split_and!; [done|lia|done].
    + intros (-> & Hle & Hl). destruct (decide (b = si)) as [->|Hne].
      * rewrite Nat.sub_diag in Hl. simpl in Hl. left. congruence.
      * right. replace (b - si) with (S (b - S si)) in Hl by lia.
        split_and!; [done|lia|done].
Qed.

Lemma elem_of_enum_levels li levels r s :
  (r, s) ∈ enum_levels li levels
  <-> li <= r.1 /\ exists level, levels !! (r.1 - li) = Some level
                                /\ spots level !! r.2 = Some s.
Proof.
  revert li. induction levels as [|level rest IH]; intros li; simpl.
  - rewrite elem_of_nil. split; [done|]. by intros (_ & ? & ? & _).
  - rewrite elem_of_app, IH, elem_of_enum_spots. destruct r as [a b]. simpl. split.
    + intros [(-> & _ & Hl)|(Hle & lv & Hlv & Hl)].
      * rewrite Nat.sub_diag, Nat.sub_0_r in *. eauto.
      * replace (a - li) with (S (a - S li)) by lia. split; [lia|eauto].
    + intros (Hle & lv & Hlv & Hl). destruct (decide (a = li)) as [->|Hne].
      * rewrite Nat.sub_diag in Hlv. simpl in Hlv. injection Hlv as ->.
        left. rewrite Nat.sub_0_r. split_and!; [done|lia|done].
      * right. replace (a - li) with (S (a - S li)) in Hlv by lia.
        split; [lia|eauto].
Qed.

(** [all_spots] lists exactly the spots of the lot, each under its
    reference. *)
Lemma elem_of_all_spots levels r s :
  (r, s) ∈ all_spots levels <-> lookup_spot levels r = Some s.
Proof.
  unfold all_spots, lookup_spot. rewrite elem_of_enum_levels, Nat.sub_0_r. split.
  - intros (_ & lv & -> & Hl). done.
  - destruct (levels !! r.1) as [lv|] eqn:E; [|done]. intros Hl.
    split; [lia|eauto].
Qed.

Lemma NoDup_enum_spots li si ss : NoDup (enum_spots li si ss).*1.
Proof.
  revert si. induction ss as [|spot rest IH]; intros si; simpl; constructor.
  - rewrite list_elem_of_fmap. intros ([r s] & Hr & Hin). simpl in Hr. subst r.
    apply elem_of_enum_spots in Hin. simpl in Hin. lia.
  - apply IH.
Qed.

Lemma NoDup_enum_levels li levels : NoDup (enum_levels li levels).*1.
Proof.
  revert li. induction levels as [|level rest IH]; intros li; simpl.
  - constructor.
  - rewrite fmap_app. apply NoDup_app. split_and!.
    + apply NoDup_enum_spots.
    + intros r. rewrite !list_elem_of_fmap.
      intros ([r1 s1] & -> & H1) ([r2 s2] & Hr & H2). simpl in Hr. subst r2.
      apply elem_of_enum_spots in H1. apply elem_of_enum_levels in H2. lia.
    + apply IH.
Qed.

Lemma NoDup_all_spots levels : NoDup (all_spots levels).*1.
Proof. apply NoDup_enum_levels. Qed.

Lemma touch_absent g r (l : list (nat * nat * ParkingSpot)) :
  r ∉ l.*1 -> touch g r <$> l = l.
Proof.
  induction l as [|f l IH]; [done|]. rewrite fmap_cons, not_elem_of_cons.
  intros [Hne Hnin]. rewrite !fmap_cons, IH by done.
  unfold touch. by rewrite decide_False.
Qed.

Lemma enum_spots_alter g li si ss k :
  enum_spots li si (alter g k ss) = touch g (li, si + k) <$> enum_spots li si ss.
Proof.
  revert si k. induction ss as [|spot rest IH]; intros si k; [done|].
  destruct k as [|k].
  - change (alter g 0 (spot :: rest)) with (g spot :: rest). simpl.
    rewrite touch_absent.
    + unfold touch. simpl. rewrite Nat.add_0_r. by rewrite decide_True.
    + rewrite list_elem_of_fmap. intros ([r s] & Hr & Hin). simpl in Hr. subst r.
      apply elem_of_enum_spots in Hin. simpl in Hin. lia.
  - change (alter g (S k) (spot :: rest)) with (spot :: alter g k rest). simpl.
    rewrite IH. replace (S si + k) with (si + S k) by lia.
    unfold touch at 2. simpl. rewrite decide_False; [done|]. intros [=]. lia.
Qed.

Lemma enum_levels_update g li levels a b :
  enum_levels li
    (alter (fun level => {| level_id := level_id level;
                            spots := alter g b (spots level) |}) a levels)
  = touch g (li + a, b) <$> enum_levels li levels.
Proof.
  revert li a. induction levels as [|level rest IH]; intros li a; [done|].
  destruct a as [|a].
  - match goal with |- context [alter ?F 0 (level :: rest)] =>
      change (alter F 0 (level :: rest)) with (F level :: rest) end.
    simpl. rewrite fmap_app, enum_spots_alter, Nat.add_0_r. simpl. f_equal.
    rewrite touch_absent; [done|].
    rewrite list_elem_of_fmap. intros ([r s] & Hr & Hin). simpl in Hr. subst r.
    apply elem_of_enum_levels in Hin. simpl in Hin. lia.
  - match goal with |- context [alter ?F (S a) (level :: rest)] =>
      change (alter F (S a) (level :: rest)) with (level :: alter F a rest) end.
    simpl. rewrite fmap_app, IH. replace (S li + a) with (li + S a) by lia. f_equal.
    rewrite touch_absent; [done|].
    rewrite list_elem_of_fmap. intros ([r s] & Hr & Hin). simpl in Hr. subst r.
    apply elem_of_enum_spots in Hin. simpl in Hin. lia.
Qed.

(** [update_spot] changes the one entry of [all_spots] under the
    reference and keeps the order. *)
Lemma all_spots_update g r levels :
  all_spots (update_spot g r levels) = touch g r <$> all_spots levels.
Proof. destruct r as [a b]. apply (enum_levels_update g 0 levels a b). Qed.

Lemma lookup_update_spot g r r' levels :
  lookup_spot (update_spot g r levels) r'
  = if decide (r' = r) then g <$> lookup_spot levels r else lookup_spot levels r'.
Proof.
  unfold lookup_spot, update_spot. destruct r as [a b], r' as [a' b']. simpl.
  destruct (decide (a' = a)) as [->|Hne].
  - rewrite list_lookup_alter_eq. destruct (levels !! a) as [lv|]; simpl.
    + destruct (decide (b' = b)) as [->|Hb].
      * by rewrite decide_True, list_lookup_alter_eq.
      * rewrite decide_False by congruence. by rewrite list_lookup_alter_ne.
    + by case_decide.
  - rewrite list_lookup_alter_ne by done. rewrite decide_False by congruence. done.
Qed.

(** Once the spot at the head of a filtered enumeration is changed so
    that it fails the filter, the tail remains. *)
Lemma filter_touch_tail (P : nat * nat * ParkingSpot -> Prop)
    `{forall f, Decision (P f)} g (l : list (nat * nat * ParkingSpot)) x t :
  NoDup l.*1 -> filter P l = x :: t -> ~ P (x.1, g x.2) ->
  filter P (touch g x.1 <$> l) = t.
Proof.
  intros Hnd Hf Hx. revert t Hnd Hf. induction l as [|y l IH]; intros t Hnd Hf; [done|].
  rewrite fmap_cons in Hnd. apply NoDup_cons in Hnd as [Hy Hnd].
  rewrite filter_cons in Hf. rewrite fmap_cons, filter_cons.
  destruct (decide (P y)) as [Hp|Hp].
  - injection Hf as -> Hf.
    assert (touch g x.1 x = (x.1, g x.2)) as ->
      by (unfold touch; by rewrite decide_True).
    rewrite decide_False by done. by rewrite touch_absent.
  - assert (y.1 <> x.1) as Hne.
    { intros Heq. apply Hy. rewrite Heq. apply list_elem_of_fmap_2.
      assert (x ∈ filter P l) as Hin by (rewrite Hf; left).
      by apply list_elem_of_filter in Hin as [_ Hin]. }
    assert (touch g x.1 y = y) as ->
      by (unfold touch; by rewrite decide_False).
    rewrite decide_False by done. by apply IH.
Qed.

End ParkingRefs.

(** ** Properties of the parking strategies *)

Section ParkingStrategies.
Import Parking.
Implicit Types (v : Vehicle) (levels : list ParkingLevel)
  (f : nat * nat * ParkingSpot) (s : Strategy).

Lemma in_compact_large_spec (sz : string) :
  in_compact_large sz = bool_decide (sz = "compact" \/ sz = "large").
Proof.
  unfold in_compact_large.
  destruct (String.eqb_spec sz "compact") as [H1|H1],
           (String.eqb_spec sz "large") as [H2|H2];
    cbn [orb]; symmetry;
    first [apply bool_decide_eq_true | apply bool_decide_eq_false]; tauto.
Qed.

Lemma can_fit_fits s v spot :
  can_fit s v spot = fits (vehicle_class v) (size spot).
Proof.
  destruct s; simpl;
    unfold FirstAvailable_can_fit, BestFit_can_fit, Closest_can_fit, fits;
    destruct (vehicle_class v); auto using in_compact_large_spec.
Qed.

(** C7. The three [_can_fit] methods compute one and the same total
    function, the compatibility rule of the specification: a motorcycle
    fits every size, a car fits exactly the sizes compact and large, and
    no other combination fits. *)
Theorem can_fit_rule s v spot :
  can_fit s v spot = FirstAvailable_can_fit v spot
  /\ can_fit s v spot = fits (vehicle_class v) (size spot)
  /\ (can_fit s v spot = true
      <-> vehicle_class v = Motorcycle
          \/ (vehicle_class v = Car
              /\ (size spot = "compact" \/ size spot = "large"))).
Proof.
  split_and!; [by destruct s|apply can_fit_fits|].
  rewrite can_fit_fits. unfold fits. destruct (vehicle_class v); simpl.
  - rewrite bool_decide_eq_true. split; [by right|]. by intros [?|[_ ?]].
  - split; [by left|done].
  - split; [done|]. by intros [?|[? _]].
Qed.

Lemma free_fit_class s v v' f :
  vehicle_class v = vehicle_class v' -> free_fit s v f = free_fit s v' f.
Proof.
  intros Hc. unfold free_fit. f_equal. by rewrite !can_fit_fits, Hc.
Qed.

Lemma candidates_class s v v' levels :
  vehicle_class v = vehicle_class v' -> candidates s v levels = candidates s v' levels.
Proof.
  intros Hc. unfold candidates. apply list_filter_iff. intros f.
  by rewrite (free_fit_class s v v').
Qed.

(** A candidate is a spot of the lot that is free and fits. *)
Lemma elem_of_candidates s v levels f :
  f ∈ candidates s v levels
  <-> lookup_spot levels f.1 = Some f.2
      /\ vehicle f.2 = None /\ can_fit s v f.2 = true.
Proof.
  unfold candidates. rewrite list_elem_of_filter. destruct f as [r spot].
  rewrite elem_of_all_spots. unfold free_fit, is_available. simpl.
  rewrite andb_true_iff. destruct (vehicle spot); intuition congruence.
Qed.

(** Parking in the first candidate removes it from the candidates and
    leaves the others in place. *)
Lemma candidates_park s v v' levels r spot t :
  candidates s v' levels = (r, spot) :: t ->
  candidates s v' (update_spot (spot_park_vehicle v) r levels) = t.
Proof.
  unfold candidates. intros Hc. rewrite all_spots_update.
  apply (filter_touch_tail _ _ _ (r, spot)); [apply NoDup_all_spots|done|].
  unfold free_fit. simpl. done.
Qed.

Lemma find_spot_first_available v levels :
  find_spot FirstAvailableStrategy v levels
  = Ok (head (candidates FirstAvailableStrategy v levels)).
Proof. simpl. by rewrite first_available_levels_flat. Qed.

Lemma find_spot_closest v levels :
  find_spot ClosestToEntranceStrategy v levels
  = Ok (foldl (keep_min distance_of) None
          (candidates ClosestToEntranceStrategy v levels)).
Proof. simpl. by rewrite closest_levels_flat. Qed.

Lemma find_spot_best_fit_known v levels :
  Forall known_size (candidates BestFitStrategy v levels) ->
  find_spot BestFitStrategy v levels
  = Ok (foldl (keep_min priority_of) None (candidates BestFitStrategy v levels)).
Proof. intros Hk. simpl. by rewrite best_fit_levels_flat. Qed.

End ParkingStrategies.

Section ParkingSelection.
Import Parking.
Implicit Types (v : Vehicle) (levels : list ParkingLevel)
  (f : nat * nat * ParkingSpot) (s : Strategy).

(** C5. Whenever some spot is free and fits, [ClosestToEntranceStrategy]
    returns a free fitting spot of minimum [distance_to_entrance], the
    first such spot in declaration order; when the free fitting spots
    have the distances 10, 5, 15 in this order it returns the one at
    distance 5. *)
Theorem closest_selection v levels :
  candidates ClosestToEntranceStrategy v levels <> [] ->
  exists f,
    find_spot ClosestToEntranceStrategy v levels = Ok (Some f)
    /\ first_min distance_of (candidates ClosestToEntranceStrategy v levels) f
    /\ (distance_of <$> candidates ClosestToEntranceStrategy v levels
          = [10; 5; 15]%Z -> distance_of f = 5%Z).
Proof.
  intros Hne. rewrite find_spot_closest.
  destruct (foldl_keep_min_first_min distance_of _ Hne) as (f & Hf & Hmin).
  exists f. split_and!; [by rewrite Hf|done|]. intros Hd.
  assert (distance_of f ∈ [10; 5; 15]%Z) as Hin.
  { rewrite <- Hd. apply list_elem_of_fmap_2. by eapply first_min_elem_of. }
  assert (5%Z ∈ distance_of <$> candidates ClosestToEntranceStrategy v levels)
    as H5 by (rewrite Hd; repeat constructor).
  apply list_elem_of_fmap in H5 as (g & Hg & Hgin).
  pose proof (first_min_le _ _ _ _ Hmin Hgin) as Hle.
  rewrite !elem_of_cons, elem_of_nil in Hin. lia.
Qed.

Lemma closest_selection_witness :
  candidates ClosestToEntranceStrategy (mkVehicle Car "ABC123") three_levels_lot <> []
  /\ exists f,
    find_spot ClosestToEntranceStrategy (mkVehicle Car "ABC123") three_levels_lot
      = Ok (Some f)
    /\ first_min distance_of
         (candidates ClosestToEntranceStrategy (mkVehicle Car "ABC123")
            three_levels_lot) f
    /\ (distance_of
          <$> candidates ClosestToEntranceStrategy (mkVehicle Car "ABC123")
                three_levels_lot
          = [10; 5; 15]%Z -> distance_of f = 5%Z).
Proof.
  assert (candidates ClosestToEntranceStrategy (mkVehicle Car "ABC123")
            three_levels_lot <> []) as Hne by (vm_compute; discriminate).
  split; [exact Hne|]. exact (closest_selection _ _ Hne).
Defined.

Lemma known_size_cases f :
  known_size f ->
  (size f.2 = "motorcycle" /\ priority_of f = 0%Z)
  \/ (size f.2 = "compact" /\ priority_of f = 1%Z)
  \/ (size f.2 = "large" /\ priority_of f = 2%Z).
Proof.
  unfold known_size, priority_of, size_priority. intros [p Hp]. revert Hp.
  destruct (String.eqb_spec (size f.2) "motorcycle") as [H1|H1]; [by left|].
  destruct (String.eqb_spec (size f.2) "compact") as [H2|H2]; [by right; left|].
  destruct (String.eqb_spec (size f.2) "large") as [H3|H3]; [by right; right|].
  done.
Qed.

(** C4 (amended). When some spot is free and fits and every free fitting
    spot has one of the sizes motorcycle, compact, large,
    [BestFitStrategy] returns the free fitting spot of lowest priority
    under motorcycle (0) < compact (1) < large (2), the first such spot
    in declaration order. *)
Theorem best_fit_selection v levels :
  candidates BestFitStrategy v levels <> [] ->
  Forall known_size (candidates BestFitStrategy v levels) ->
  exists f,
    find_spot BestFitStrategy v levels = Ok (Some f)
    /\ first_min priority_of (candidates BestFitStrategy v levels) f
    /\ Forall (fun g => (size g.2 = "motorcycle" /\ priority_of g = 0%Z)
                        \/ (size g.2 = "compact" /\ priority_of g = 1%Z)
                        \/ (size g.2 = "large" /\ priority_of g = 2%Z))
         (candidates BestFitStrategy v levels).
Proof.
  intros Hne Hk. rewrite find_spot_best_fit_known by done.
  destruct (foldl_keep_min_first_min priority_of _ Hne) as (f & Hf & Hmin).
  exists f. split_and!; [by rewrite Hf|done|].
  eapply Forall_impl; [exact Hk|]. apply known_size_cases.
Qed.

Lemma best_fit_selection_witness :
  candidates BestFitStrategy (mkVehicle Motorcycle "XYZ789") usage_lot <> []
  /\ Forall known_size
       (candidates BestFitStrategy (mkVehicle Motorcycle "XYZ789") usage_lot)
  /\ exists f,
    find_spot BestFitStrategy (mkVehicle Motorcycle "XYZ789") usage_lot = Ok (Some f)
    /\ first_min priority_of
         (candidates BestFitStrategy (mkVehicle Motorcycle "XYZ789") usage_lot) f
    /\ Forall (fun g => (size g.2 = "motorcycle" /\ priority_of g = 0%Z)
                        \/ (size g.2 = "compact" /\ priority_of g = 1%Z)
                        \/ (size g.2 = "large" /\ priority_of g = 2%Z))
         (candidates BestFitStrategy (mkVehicle Motorcycle "XYZ789") usage_lot).
Proof.
  assert (candidates BestFitStrategy (mkVehicle Motorcycle "XYZ789") usage_lot <> [])
    as Hne by (vm_compute; discriminate).
  assert (Forall known_size
            (candidates BestFitStrategy (mkVehicle Motorcycle "XYZ789") usage_lot))
    as Hk by (vm_compute; repeat constructor; eexists; reflexivity).
  split_and!; [exact Hne|exact Hk|]. exact (best_fit_selection _ _ Hne Hk).
Defined.

(** In the lot of the usage section [BestFitStrategy] gives a motorcycle
    the motorcycle spot, the third spot declared. *)
Example best_fit_usage :
  find_spot BestFitStrategy (mkVehicle Motorcycle "XYZ789") usage_lot
  = Ok (Some ((0, 2), ParkingSpot_init "A3" "motorcycle" 15)).
Proof. reflexivity. Qed.

(** With a free spot of a size outside the dictionary, the comparison of
    [_is_better_spot] raises [KeyError]: [find_spot] returns no spot
    although two spots are free and fit. *)
Lemma best_fit_unknown_size_raises :
  candidates BestFitStrategy (mkVehicle Motorcycle "XYZ789") oversize_lot <> []
  /\ find_spot BestFitStrategy (mkVehicle Motorcycle "XYZ789") oversize_lot
     = Raise (KeyError "xl")
  /\ ~ exists f,
       find_spot BestFitStrategy (mkVehicle Motorcycle "XYZ789") oversize_lot
       = Ok (Some f).
Proof.
  split_and!.
  - vm_compute. discriminate.
  - reflexivity.
  - intros [f Hf]. vm_compute in Hf. discriminate.
Qed.

End ParkingSelection.

Section ParkingFirstAvailable.
Import Parking.
Implicit Types (v : Vehicle) (levels : list ParkingLevel)
  (f : nat * nat * ParkingSpot).

Lemma park_vehicle_first_available v levels :
  park_vehicle v (mkController levels FirstAvailableStrategy)
  = Ok (match head (candidates FirstAvailableStrategy v levels) with
        | Some (r, spot) =>
            (parked_message v spot,
             mkController (update_spot (spot_park_vehicle v) r levels)
               FirstAvailableStrategy)
        | None => (no_spot_message, mkController levels FirstAvailableStrategy)
        end).
Proof.
  unfold park_vehicle. cbn [allocation_strategy parking_lot].
  rewrite find_spot_first_available. cbn [rbind].
  by destruct (head _) as [[r spot]|].
Qed.

(** Sequential calls for vehicles of one class take the free fitting
    spots one after the other, in declaration order. *)
Lemma park_vehicles_first_available (k : VehicleClass) (vs : list Vehicle) :
  Forall (fun v => vehicle_class v = k) vs ->
  forall levels,
  exists c',
    park_vehicles vs (mkController levels FirstAvailableStrategy)
    = Ok (zip_with parked_message vs
            (candidates FirstAvailableStrategy (mkVehicle k "") levels).*2
          ++ replicate
               (length vs
                - length (candidates FirstAvailableStrategy (mkVehicle k "") levels))
               no_spot_message,
          c').
Proof.
  induction 1 as [|v vs Hv Hvs IH]; intros levels.
  { eexists. reflexivity. }
  cbn [park_vehicles]. rewrite park_vehicle_first_available. cbn [rbind].
  rewrite (candidates_class _ v (mkVehicle k "")) by done.
  destruct (candidates FirstAvailableStrategy (mkVehicle k "") levels)
    as [|[r spot] t] eqn:Hc.
  - cbn [head snd fst]. destruct (IH levels) as (c' & ->). rewrite Hc.
    cbn [rbind snd fst]. exists c'. simpl.
    by rewrite !zip_with_nil_r, Nat.sub_0_r.
  - cbn [head snd fst].
    destruct (IH (update_spot (spot_park_vehicle v) r levels)) as (c' & ->).
    rewrite (candidates_park _ v _ _ _ _ _ Hc).
    cbn [rbind snd fst]. by exists c'.
Qed.

(** C6. [FirstAvailableStrategy] scans the levels in declaration order
    and the spots of a level in declaration order, and returns the first
    spot that is free and fits; consequently repeated sequential
    [park_vehicle] calls for vehicles of one class are answered with the
    free fitting spots of the starting lot strictly in declaration order,
    and with "No available spot" once these are used up. *)
Theorem first_available_declaration_order (k : VehicleClass)
    (plates : list string) levels :
  (forall plate,
     find_spot FirstAvailableStrategy (mkVehicle k plate) levels
     = Ok (head (filter (fun f => free_fit FirstAvailableStrategy (mkVehicle k "") f = true)
                   (all_spots levels))))
  /\ exists c',
       park_vehicles (mkVehicle k <$> plates)
         (mkController levels FirstAvailableStrategy)
       = Ok (zip_with parked_message (mkVehicle k <$> plates)
               (candidates FirstAvailableStrategy (mkVehicle k "") levels).*2
             ++ replicate
                  (length plates
                   - length (candidates FirstAvailableStrategy (mkVehicle k "") levels))
                  no_spot_message,
             c').
Proof.
  split.
  - intros plate. rewrite find_spot_first_available.
    by rewrite (candidates_class _ _ (mkVehicle k "")).
  - destruct (park_vehicles_first_available k (mkVehicle k <$> plates))
      with (levels := levels) as (c' & Hc').
    { apply Forall_fmap, Forall_forall. done. }
    exists c'. rewrite Hc'. by rewrite length_fmap.
Qed.

(** The usage section's lot, three cars and then three more. *)
Example first_available_usage :
  exists c',
    park_vehicles (mkVehicle Car <$> ["ABC123"; "DEF456"; "GHI789"; "JKL012"; "MNO345"])
      (mkController usage_lot FirstAvailableStrategy)
    = Ok (["Vehicle ABC123 parked in spot A1"; "Vehicle DEF456 parked in spot A2";
           "Vehicle GHI789 parked in spot B1"; "Vehicle JKL012 parked in spot B2";
           "No available spot"], c').
Proof. eexists. vm_compute. reflexivity. Qed.

End ParkingFirstAvailable.

(** ** What the parking strategies can return *)

Section ParkingSoundness.
Import Parking.
Implicit Types (v : Vehicle) (levels : list ParkingLevel)
  (f : nat * nat * ParkingSpot) (s : Strategy).

Lemma best_fit_spots_inv v li si ss acc o :
  best_fit_spots v li si ss acc = Ok o ->
  (forall f, o = Some f ->
     acc = Some f
     \/ f ∈ filter (fun f => free_fit BestFitStrategy v f = true) (enum_spots li si ss))
  /\ (o = None ->
      acc = None
      /\ filter (fun f => free_fit BestFitStrategy v f = true) (enum_spots li si ss) = []).
Proof.
  revert si acc. induction ss as [|spot rest IH]; intros si acc.
  { simpl. intros [= <-]. split; [by left|done]. }
  cbn [best_fit_spots enum_spots]. rewrite filter_cons.
  case_decide as E; [|apply not_true_is_false in E];
    unfold free_fit in E; cbn [snd can_fit] in E; rewrite E; [|apply IH].
  assert (forall acc',
            best_fit_spots v li (S si) rest (Some (li, si, spot)) = Ok o \/
            (best_fit_spots v li (S si) rest acc' = Ok o /\ acc' = acc
             /\ is_Some acc) ->
            (forall f, o = Some f ->
               acc = Some f
               \/ f ∈ (li, si, spot)
                      :: filter (fun f => free_fit BestFitStrategy v f = true)
                           (enum_spots li (S si) rest))
            /\ (o = None ->
                acc = None
                /\ (li, si, spot)
                   :: filter (fun f => free_fit BestFitStrategy v f = true)
                        (enum_spots li (S si) rest) = [])) as Hstep.
  { intros acc' [Hnew|(Hold & -> & [b Hb])].
    - apply IH in Hnew as [H1 H2]. split.
      + intros f Hf. right. destruct (H1 f Hf) as [[= <-]|Hin]; [left|by right].
      + intros Ho. by destruct (H2 Ho).
    - apply IH in Hold as [H1 H2]. split.
      + intros f Hf. destruct (H1 f Hf) as [?|Hin]; [by left|right; by right].
      + intros Ho. destruct (H2 Ho) as [? _]. congruence. }
  destruct acc as [[rb b]|].
  - destruct (is_better_spot spot b) as [[|]|e]; cbn [rbind]; [| |done].
    + intros Hr. apply (Hstep None). by left.
    + intros Hr. apply (Hstep (Some (rb, b))). right. eauto.
  - intros Hr. apply (Hstep None). by left.
Qed.

Lemma best_fit_levels_inv v li levels acc o :
  best_fit_levels v li levels acc = Ok o ->
  (forall f, o = Some f ->
     acc = Some f
     \/ f ∈ filter (fun f => free_fit BestFitStrategy v f = true) (enum_levels li levels))
  /\ (o = None ->
      acc = None
      /\ filter (fun f => free_fit BestFitStrategy v f = true) (enum_levels li levels) = []).
Proof.
  revert li acc. induction levels as [|level rest IH]; intros li acc.
  { simpl. intros [= <-]. split; [by left|done]. }
  cbn [best_fit_levels enum_levels]. rewrite filter_app.
  destruct (best_fit_spots v li 0 (spots level) acc) as [best'|e] eqn:E1;
    cbn [rbind]; [|done].
  intros E2. apply best_fit_spots_inv in E1 as [S1 S2].
  apply IH in E2 as [L1 L2]. split.
  - intros f Hf. destruct (L1 f Hf) as [Hb|Hin].
    + destruct (S1 f Hb) as [?|Hin]; [by left|]. right. apply elem_of_app. by left.
    + right. apply elem_of_app. by right.
  - intros Ho. destruct (L2 Ho) as [Hb ->]. destruct (S2 Hb) as [-> ->]. done.
Qed.

(** Whatever a strategy returns is a free fitting spot of the lot. *)
Lemma find_spot_sound s v levels f :
  find_spot s v levels = Ok (Some f) -> f ∈ candidates s v levels.
Proof.
  destruct s.
  - rewrite find_spot_first_available. intros [= Hh].
    destruct (candidates _ _ _) as [|g t]; [done|]. injection Hh as ->. left.
  - intros Hf. apply best_fit_levels_inv in Hf as [H1 _].
    by destruct (H1 f eq_refl).
  - rewrite find_spot_closest. intros [= Hh].
    destruct (decide (candidates ClosestToEntranceStrategy v levels = [])) as [He|Hne].
    { by rewrite He in Hh. }
    destruct (foldl_keep_min_first_min distance_of _ Hne) as (g & Hg & Hmin).
    rewrite Hg in Hh. injection Hh as ->. by eapply first_min_elem_of.
Qed.

(** A strategy returns [None] exactly when no spot is free and fits. *)
Lemma find_spot_none s v levels :
  find_spot s v levels = Ok None <-> candidates s v levels = [].
Proof.
  destruct s.
  - rewrite find_spot_first_available. split.
    + intros [= Hh]. by destruct (candidates _ _ _).
    + by intros ->.
  - split.
    + intros Hf. apply best_fit_levels_inv in Hf as [_ H2]. by destruct H2.
    + intros He. rewrite find_spot_best_fit_known; by rewrite He.
  - rewrite find_spot_closest. split.
    + intros [= Hh]. by apply foldl_keep_min_nil_inv in Hh.
    + by intros ->.
Qed.

(** [FirstAvailableStrategy] and [ClosestToEntranceStrategy] never
    raise; [BestFitStrategy] does not raise when the free fitting spots
    have sizes of the dictionary. *)
Lemma find_spot_no_raise s v levels :
  s <> BestFitStrategy \/ Forall known_size (candidates s v levels) ->
  exists o, find_spot s v levels = Ok o.
Proof.
  destruct s; intros [Hs|Hk]; try done; try (eexists; reflexivity).
  eexists. by apply find_spot_best_fit_known.
Qed.

End ParkingSoundness.

(** ** The parking controller: provisioning and repeated parking *)

Section ParkingController.
Import Parking.
Implicit Types (v : Vehicle) (levels : list ParkingLevel)
  (f : nat * nat * ParkingSpot) (s : Strategy).

(** [add_parking_spot] appends the new, empty spot to the first level
    with the given id, or to a new level appended to the lot; nothing is
    checked. *)
Lemma add_parking_spot_levels_spec lid sid sz d levels :
  add_parking_spot_levels lid sid sz d levels
  = match list_find (fun level => level_id level = lid) levels with
    | Some (i, level) =>
        <[i := {| level_id := level_id level;
                  spots := spots level ++ [ParkingSpot_init sid sz d] |}]> levels
    | None =>
        levels ++ [ {| level_id := lid; spots := [ParkingSpot_init sid sz d] |} ]
    end.
Proof.
  induction levels as [|level rest IH]; [done|].
  cbn [add_parking_spot_levels list_find].
  destruct (String.eqb_spec (level_id level) lid) as [Heq|Hne].
  - by rewrite decide_True.
  - rewrite decide_False by done. rewrite IH.
    by destruct (list_find _ rest) as [[i lv]|].
Qed.

(** A vehicle that already stands in the lot is parked a second time
    whenever the strategy finds a spot: the call succeeds, the old spot
    stays occupied and a second spot is occupied by the same vehicle. *)
Lemma park_vehicle_again s v levels q sq f :
  lookup_spot levels q = Some sq -> vehicle sq = Some v ->
  find_spot s v levels = Ok (Some f) ->
  f.1 <> q
  /\ park_vehicle v (mkController levels s)
     = Ok (parked_message v f.2,
           mkController (update_spot (spot_park_vehicle v) f.1 levels) s)
  /\ lookup_spot (update_spot (spot_park_vehicle v) f.1 levels) q = Some sq
  /\ lookup_spot (update_spot (spot_park_vehicle v) f.1 levels) f.1
     = Some (spot_park_vehicle v f.2).
Proof.
  intros Hq Hv Hf.
  pose proof (find_spot_sound _ _ _ _ Hf) as Hc.
  apply elem_of_candidates in Hc as (Hl & Hfree & _).
  assert (f.1 <> q) as Hne by (intros Heq; rewrite Heq in Hl; congruence).
  split_and!; [done| | |].
  - unfold park_vehicle. cbn [allocation_strategy parking_lot].
    rewrite Hf. cbn [rbind]. by destruct f as [r spot].
  - rewrite lookup_update_spot. by rewrite decide_False.
  - rewrite lookup_update_spot. rewrite decide_True by done. by rewrite Hl.
Qed.

(** The same car parked twice under [FirstAvailableStrategy]: both calls
    succeed and the car holds both spots. *)
Lemma park_vehicle_twice :
  exists c',
    park_vehicles [mkVehicle Car "ABC123"; mkVehicle Car "ABC123"]
      (mkController two_compact_lot FirstAvailableStrategy)
    = Ok (["Vehicle ABC123 parked in spot A1"; "Vehicle ABC123 parked in spot A2"], c')
    /\ (vehicle <$> lookup_spot (parking_lot c') (0, 0)) = Some (Some (mkVehicle Car "ABC123"))
    /\ (vehicle <$> lookup_spot (parking_lot c') (0, 1)) = Some (Some (mkVehicle Car "ABC123")).
Proof. eexists. vm_compute. done. Qed.

(** A spot id that is already in use is accepted: the level then holds
    two spots with this id. *)
Lemma add_parking_spot_same_id :
  spot_id <$> mjoin (spots <$> parking_lot
    (add_parking_spot "L1" "A1" "large" 7
       (add_parking_spot "L1" "A1" "compact" 10
          (ParkingLotController_init FirstAvailableStrategy))))
  = ["A1"; "A1"].
Proof. reflexivity. Qed.

End ParkingController.

(** ** Lockers: the heap, the index and the occupants *)

Section LockerBasics.
Import Lockers.
Implicit Types (st : State) (h : list Locker) (m : LockerManager)
  (p : Package) (r : nat) (s : Strategy).

Lemma locker_available_occupant st r :
  locker_available (heap st) r = true -> occupant st r = None.
Proof.
  unfold locker_available, occupant, is_available.
  destruct (heap st !! r) as [l|]; [|done]. simpl. by destruct (package l).
Qed.

Lemma occupant_store h m m' p r r' :
  occupant (mkState (alter (Locker_store_package p) r h) m) r'
  = if decide (r = r')
    then (fun _ => customer_id p) <$> h !! r
    else occupant (mkState h m') r'.
Proof.
  unfold occupant. cbn [heap]. rewrite list_lookup_alter.
  case_decide; [|done]. by destruct (h !! r).
Qed.

Lemma occupant_retrieve h m m' r r' :
  occupant (mkState (alter Locker_retrieve_package r h) m) r'
  = if decide (r = r') then None else occupant (mkState h m') r'.
Proof.
  unfold occupant. cbn [heap]. rewrite list_lookup_alter.
  case_decide; [|done]. by destruct (h !! r).
Qed.

Lemma occupant_heap st st' r : heap st = heap st' -> occupant st r = occupant st' r.
Proof. unfold occupant. by intros ->. Qed.

(** The empty locker that [Locker_init] appends has no occupant, and no
    other locker changes. *)
Lemma occupant_provision lid sz st r :
  occupant (provision_locker lid sz st) r = occupant st r.
Proof.
  unfold provision_locker, Locker_init, add_locker. cbn [heap manager].
  rewrite list_lookup_middle by done. unfold occupant. cbn [heap].
  destruct (decide (r < length (heap st))) as [Hlt|Hge].
  - by rewrite lookup_app_l.
  - rewrite (lookup_ge_None_2 (heap st)) by lia.
    destruct (decide (r = length (heap st))) as [->|Hne].
    + by rewrite list_lookup_middle.
    + rewrite lookup_ge_None_2; [done|]. rewrite length_app. simpl. lia.
Qed.

Lemma provision_locker_index lid sz st :
  lockers_by_customer (manager (provision_locker lid sz st))
  = lockers_by_customer (manager st).
Proof.
  unfold provision_locker, Locker_init, add_locker. cbn [heap manager].
  by rewrite list_lookup_middle.
Qed.

Lemma find_available_locker_spec sz st :
  find_available_locker sz st
  = (head (available_lockers (heap st)
             (default [] (dict_get sz (lockers_by_size (manager st))))),
     mkState (heap st)
       (mkManager (dict_getitem sz (lockers_by_size (manager st))).2
          (lockers_by_customer (manager st)))).
Proof.
  unfold find_available_locker, dict_getitem.
  by destruct (dict_get sz (lockers_by_size (manager st))).
Qed.

(** A strategy changes neither a locker nor the index, and the locker
    it returns is available. *)
Lemma allocate_locker_frame s p st found st1 :
  allocate_locker s p st = (found, st1) ->
  heap st1 = heap st
  /\ lockers_by_customer (manager st1) = lockers_by_customer (manager st)
  /\ forall r, found = Some r -> locker_available (heap st) r = true.
Proof.
  assert (forall sz, find_available_locker sz st = (found, st1) ->
            heap st1 = heap st
            /\ lockers_by_customer (manager st1) = lockers_by_customer (manager st)
            /\ forall r, found = Some r -> locker_available (heap st) r = true) as Hfind.
  { intros sz. rewrite find_available_locker_spec. intros [= <- <-].
    split_and!; [done..|]. intros r Hr. apply head_Some_elem_of in Hr.
    unfold available_lockers in Hr. by apply list_elem_of_filter in Hr as [? _]. }
  destruct s; simpl; [apply Hfind|].
  destruct (most_available_loop _ _ _ _); [apply Hfind|].
  by intros [= <- <-].
Qed.

End LockerBasics.

(** ** Lockers: consistency of the customer index *)

Section LockerIndex.
Import Lockers.
Implicit Types (st : State) (p : Package) (r : nat) (s : Strategy) (op : Op).

Lemma receive_package_cases s p st :
  (exists st1, allocate_locker s p st = (None, st1)
               /\ receive_package s p st = (no_locker_message, st1))
  \/ (exists r st1,
        allocate_locker s p st = (Some r, st1)
        /\ locker_available (heap st) r = true
        /\ receive_package s p st
           = (from_option locker_id "" (heap (store_package r p st1) !! r),
              store_package r p st1)).
Proof.
  unfold receive_package.
  destruct (allocate_locker s p st) as [[r|] st1] eqn:Ha.
  - right. exists r, st1. split_and!; [done| |done].
    by apply allocate_locker_frame in Ha as (_ & _ & ->).
  - left. by exists st1.
Qed.

Lemma index_sound_store s p st r st1 :
  allocate_locker s p st = (Some r, st1) ->
  index_sound st -> index_sound (store_package r p st1).
Proof.
  intros Ha Hs c r'. apply allocate_locker_frame in Ha as (Hh & Hi & Hav).
  specialize (Hav r eq_refl). destruct st1 as [h1 m1]. simpl in Hh, Hi. subst h1.
  unfold store_package. cbn [heap manager lockers_by_customer]. rewrite Hi.
  rewrite (occupant_store _ _ (manager st)).
  assert (is_Some (heap st !! r)) as [l Hl].
  { unfold locker_available in Hav. by destruct (heap st !! r). }
  destruct (decide (customer_id p = c)) as [<-|Hc].
  - rewrite lookup_insert_eq. intros [= <-]. rewrite decide_True by done.
    by rewrite Hl.
  - rewrite lookup_insert_ne by done. intros Hr'. apply Hs in Hr'.
    destruct st as [h m]. simpl in *.
    rewrite decide_False; [done|]. intros <-.
    apply (locker_available_occupant (mkState h m)) in Hav. congruence.
Qed.

Lemma index_sound_retrieve cid st :
  index_sound st -> index_sound (retrieve_package cid st).2.
Proof.
  intros Hs c r'. unfold retrieve_package.
  destruct (lockers_by_customer (manager st) !! cid) as [r|] eqn:Hr; [|apply Hs].
  cbn [snd heap manager lockers_by_customer].
  rewrite (occupant_retrieve _ _ (manager st)).
  destruct (decide (cid = c)) as [<-|Hc].
  - by rewrite lookup_delete_eq.
  - rewrite lookup_delete_ne by done. intros Hr'.
    apply Hs in Hr. apply Hs in Hr'. destruct st as [h m]. simpl in *.
    rewrite decide_False; [done|]. intros <-. congruence.
Qed.

Lemma index_sound_frame st st1 :
  heap st1 = heap st ->
  lockers_by_customer (manager st1) = lockers_by_customer (manager st) ->
  index_sound st -> index_sound st1.
Proof.
  intros Hh Hi Hs c r. rewrite Hi, (occupant_heap st1 st) by done. apply Hs.
Qed.

Lemma index_sound_step st op : index_sound st -> index_sound (step st op).
Proof.
  intros Hs. destruct op as [lid sz|s p|cid]; cbn [step].
  - intros c r. rewrite provision_locker_index, occupant_provision. apply Hs.
  - destruct (receive_package_cases s p st)
      as [(st1 & Ha & ->)|(r & st1 & Ha & _ & ->)]; cbn [snd].
    + apply allocate_locker_frame in Ha as (Hh & Hi & _).
      by apply (index_sound_frame st).
    + by eapply index_sound_store.
  - unfold controller_retrieve_package.
    pose proof (index_sound_retrieve cid st Hs) as Hr.
    by destruct (retrieve_package cid st).
Qed.

Lemma index_complete_store s p st r st1 :
  allocate_locker s p st = (Some r, st1) ->
  lockers_by_customer (manager st) !! customer_id p = None ->
  index_complete st -> index_complete (store_package r p st1).
Proof.
  intros Ha Hnone Hc c r'. apply allocate_locker_frame in Ha as (Hh & Hi & Hav).
  specialize (Hav r eq_refl). destruct st1 as [h1 m1]. simpl in Hh, Hi. subst h1.
  unfold store_package. cbn [heap manager lockers_by_customer]. rewrite Hi.
  rewrite (occupant_store _ _ (manager st)).
  destruct (decide (r = r')) as [<-|Hne].
  - destruct (heap st !! r); [|done]. intros [= <-]. by rewrite lookup_insert_eq.
  - destruct st as [h m]. simpl in *. intros Ho. apply Hc in Ho. simpl in Ho.
    rewrite lookup_insert_ne; [done|]. congruence.
Qed.

Lemma index_complete_retrieve cid st :
  index_complete st -> index_complete (retrieve_package cid st).2.
Proof.
  intros Hc c r'. unfold retrieve_package.
  destruct (lockers_by_customer (manager st) !! cid) as [r|] eqn:Hr; [|apply Hc].
  cbn [snd heap manager lockers_by_customer].
  rewrite (occupant_retrieve _ _ (manager st)).
  case_decide as Hne; [done|]. destruct st as [h m]. simpl in *.
  intros Ho. apply Hc in Ho. simpl in Ho.
  rewrite lookup_delete_ne; [done|]. congruence.
Qed.

Lemma index_complete_step st op :
  match op with
  | Allocate _ p => lockers_by_customer (manager st) !! customer_id p = None
  | _ => True
  end ->
  index_complete st -> index_complete (step st op).
Proof.
  intros Hop Hc. destruct op as [lid sz|s p|cid]; cbn [step].
  - intros c r. rewrite provision_locker_index, occupant_provision. apply Hc.
  - destruct (receive_package_cases s p st)
      as [(st1 & Ha & ->)|(r & st1 & Ha & _ & ->)]; cbn [snd].
    + apply allocate_locker_frame in Ha as (Hh & Hi & _).
      intros c r. rewrite Hi, (occupant_heap st1 st) by done. apply Hc.
    + by eapply index_complete_store.
  - unfold controller_retrieve_package.
    pose proof (index_complete_retrieve cid st Hc) as Hr.
    by destruct (retrieve_package cid st).
Qed.

Lemma index_sound_run ops st : index_sound st -> index_sound (run ops st).
Proof.
  revert st. induction ops as [|op ops IH]; intros st Hs; [done|].
  apply IH. by apply index_sound_step.
Qed.

Lemma index_complete_run ops st :
  no_double_allocate ops st = true ->
  index_complete st -> index_complete (run ops st).
Proof.
  revert st. induction ops as [|op ops IH]; intros st Hnd Hc; [done|].
  cbn [no_double_allocate] in Hnd. apply andb_true_iff in Hnd as [Hop Hnd].
  apply IH; [done|]. apply index_complete_step; [|done].
  destruct op; [done| |done]. by apply bool_decide_eq_true in Hop.
Qed.

(** C1 (amended). In every state reached from the initial empty state by
    provisioning, receiving and retrieving, an entry of
    [lockers_by_customer] for customer [c] points at a locker whose
    package belongs to [c]; and when no package was received for a
    customer who had an entry at that moment, a locker holds a package of
    [c] if and only if [lockers_by_customer] maps [c] to it. *)
Theorem index_consistency (ops : list Op) (c : string) (r : nat) :
  (lockers_by_customer (manager (run ops initial_state)) !! c = Some r ->
   occupant (run ops initial_state) r = Some c)
  /\ (no_double_allocate ops initial_state = true ->
      (lockers_by_customer (manager (run ops initial_state)) !! c = Some r
       <-> occupant (run ops initial_state) r = Some c)).
Proof.
  assert (index_sound (run ops initial_state)) as Hs.
  { apply index_sound_run. intros c' r'. unfold initial_state. simpl.
    by rewrite lookup_empty. }
  split; [apply Hs|]. intros Hnd. split; [apply Hs|].
  apply index_complete_run; [done|]. intros c' r'. unfold occupant. simpl.
  by destruct r'.
Qed.

Lemma index_consistency_witness :
  no_double_allocate regular_ops initial_state = true
  /\ lockers_by_customer (manager (run regular_ops initial_state)) !! "customer_2"
     = Some 1
  /\ occupant (run regular_ops initial_state) 1 = Some "customer_2".
Proof.
  assert (no_double_allocate regular_ops initial_state = true) as Hnd
    by (vm_compute; reflexivity).
  assert (lockers_by_customer (manager (run regular_ops initial_state))
            !! "customer_2" = Some 1) as Hi by (vm_compute; reflexivity).
  split_and!; [exact Hnd|exact Hi|].
  exact (proj1 (index_consistency regular_ops "customer_2" 1) Hi).
Defined.

(** After two packages were received for one customer, the first locker
    still holds this customer's package while the index points at the
    second locker. *)
Lemma index_disagrees_after_double_allocate :
  occupant (run double_allocate_ops initial_state) 0 = Some "customer_1"
  /\ lockers_by_customer (manager (run double_allocate_ops initial_state))
       !! "customer_1" = Some 1
  /\ ~ (lockers_by_customer (manager (run double_allocate_ops initial_state))
          !! "customer_1" = Some 0
        <-> occupant (run double_allocate_ops initial_state) 0 = Some "customer_1").
Proof.
  assert (occupant (run double_allocate_ops initial_state) 0 = Some "customer_1")
    as Ho by (vm_compute; reflexivity).
  assert (lockers_by_customer (manager (run double_allocate_ops initial_state))
            !! "customer_1" = Some 1) as Hi by (vm_compute; reflexivity).
  split_and!; [done..|]. intros [_ H]. specialize (H Ho). congruence.
Qed.

End LockerIndex.

(** ** Lockers: receive and retrieve *)

Section LockerRoundTrip.
Import Lockers.
Implicit Types (st : State) (p : Package) (r : nat) (s : Strategy).

Lemma available_lookup h r :
  locker_available h r = true ->
  exists l, h !! r = Some l /\ package l = None.
Proof.
  unfold locker_available, is_available. destruct (h !! r) as [l|]; [|done].
  destruct (package l) eqn:E; [done|]. eauto.
Qed.

Lemma retrieve_store_heap h r p :
  locker_available h r = true ->
  alter Locker_retrieve_package r (alter (Locker_store_package p) r h) = h.
Proof.
  intros (l & Hl & Hp)%available_lookup. apply list_eq. intros i.
  destruct (decide (r = i)) as [<-|Hne].
  - rewrite !list_lookup_alter_eq, Hl. simpl. f_equal.
    destruct l as [lid sz pk]. simpl in Hp. by subst pk.
  - by rewrite !list_lookup_alter_ne.
Qed.

(** What a successful [receive_package] returns and leaves behind. *)
Lemma receive_package_stored s p st r st1 :
  allocate_locker s p st = (Some r, st1) ->
  (receive_package s p st).1 = from_option locker_id "" (heap st !! r)
  /\ occupant (receive_package s p st).2 r = Some (customer_id p)
  /\ lockers_by_customer (manager (receive_package s p st).2) !! customer_id p
     = Some r
  /\ heap (receive_package s p st).2 = alter (Locker_store_package p) r (heap st).
Proof.
  intros Ha.
  destruct (receive_package_cases s p st)
    as [(st1' & Ha' & _)|(r' & st1' & Ha' & Hav & ->)]; [congruence|].
  rewrite Ha in Ha'. injection Ha' as <- <-.
  apply allocate_locker_frame in Ha as (Hh & Hi & _).
  destruct (available_lookup _ _ Hav) as (l & Hl & Hp).
  cbn [fst snd]. unfold store_package. cbn [heap manager lockers_by_customer].
  rewrite Hh. split_and!; [|  | |done].
  - by rewrite list_lookup_alter_eq, Hl.
  - unfold occupant. cbn [heap]. by rewrite list_lookup_alter_eq, Hl.
  - by rewrite lookup_insert_eq.
Qed.

(** The round trip of the lockers. When [receive_package] finds a locker
    [r] for the package, the
    package is stored there under the customer's id; a following
    [retrieve_package] for this customer returns the package, empties
    [r], deletes the customer's entry of [lockers_by_customer], and
    leaves every locker, and so the set of free lockers, as it was
    before the package was received. *)
Theorem receive_retrieve_round_trip s p st r st1 :
  allocate_locker s p st = (Some r, st1) ->
  (receive_package s p st).1 = from_option locker_id "" (heap st !! r)
  /\ occupant (receive_package s p st).2 r = Some (customer_id p)
  /\ lockers_by_customer (manager (receive_package s p st).2) !! customer_id p
     = Some r
  /\ (controller_retrieve_package (customer_id p) (receive_package s p st).2).1
     = inl p
  /\ locker_available
       (heap (controller_retrieve_package (customer_id p)
                (receive_package s p st).2).2) r = true
  /\ lockers_by_customer
       (manager (controller_retrieve_package (customer_id p)
                   (receive_package s p st).2).2) !! customer_id p = None
  /\ heap (controller_retrieve_package (customer_id p) (receive_package s p st).2).2
     = heap st
  /\ free_lockers
       (controller_retrieve_package (customer_id p) (receive_package s p st).2).2
     = free_lockers st.
Proof.
  intros Ha.
  destruct (receive_package_cases s p st)
    as [(st1' & Ha' & _)|(r' & st1' & Ha' & Hav & ->)]; [congruence|].
  rewrite Ha in Ha'. injection Ha' as <- <-.
  apply allocate_locker_frame in Ha as (Hh & Hi & _).
  destruct (available_lookup _ _ Hav) as (l & Hl & Hp).
  cbn [fst snd]. unfold controller_retrieve_package, retrieve_package, store_package.
  cbn [heap manager lockers_by_customer]. rewrite lookup_insert_eq, Hh.
  rewrite list_lookup_alter_eq, Hl. cbn [fst snd heap manager lockers_by_customer].
  rewrite retrieve_store_heap by done.
  split_and!; try done.
  - unfold occupant. cbn [heap]. by rewrite list_lookup_alter_eq, Hl.
  - by rewrite lookup_delete_eq.
Qed.

Lemma receive_retrieve_round_trip_witness :
  allocate_locker FirstAvailableStrategy (mkPackage SMALL "customer_3")
    (run regular_ops initial_state)
  = (Some 0, run regular_ops initial_state)
  /\ free_lockers
       (controller_retrieve_package "customer_3"
          (receive_package FirstAvailableStrategy (mkPackage SMALL "customer_3")
             (run regular_ops initial_state)).2).2
     = free_lockers (run regular_ops initial_state).
Proof.
  assert (allocate_locker FirstAvailableStrategy (mkPackage SMALL "customer_3")
            (run regular_ops initial_state)
          = (Some 0, run regular_ops initial_state)) as Ha
    by (vm_compute; reflexivity).
  split; [exact Ha|].
  exact (proj2 (proj2 (proj2 (proj2 (proj2 (proj2 (proj2
    (receive_retrieve_round_trip _ _ _ _ _ Ha)))))))).
Defined.

(** A package received for a customer who already has an entry is
    stored like any other: the call returns the id of a second locker,
    the index entry is overwritten, and the first locker keeps its
    package. *)
Lemma receive_package_again s p st r0 r st1 :
  lockers_by_customer (manager st) !! customer_id p = Some r0 ->
  occupant st r0 = Some (customer_id p) ->
  allocate_locker s p st = (Some r, st1) ->
  r <> r0
  /\ (receive_package s p st).1 = from_option locker_id "" (heap st !! r)
  /\ lockers_by_customer (manager (receive_package s p st).2) !! customer_id p
     = Some r
  /\ occupant (receive_package s p st).2 r = Some (customer_id p)
  /\ occupant (receive_package s p st).2 r0 = Some (customer_id p).
Proof.
  intros Hi0 Ho0 Ha.
  destruct (receive_package_stored s p st r st1 Ha) as (Hid & Ho & Hi & _).
  destruct (receive_package_cases s p st)
    as [(st1' & Ha' & _)|(r' & st1' & Ha' & Hav & Hr)]; [congruence|].
  rewrite Ha in Ha'. injection Ha' as <- <-.
  assert (r <> r0) as Hne.
  { intros ->. apply locker_available_occupant in Hav. congruence. }
  split_and!; try done.
  rewrite Hr. cbn [snd]. unfold store_package.
  rewrite (occupant_store _ _ (manager st)). rewrite decide_False by done.
  apply allocate_locker_frame in Ha as (Hh & _ & _).
  rewrite <- Ho0. apply occupant_heap. by rewrite Hh.
Qed.

(** Two packages for [customer_1]: both calls return a locker id. *)
Lemma receive_package_twice :
  (receive_package FirstAvailableStrategy (mkPackage SMALL "customer_1")
     (run [Provision "SMALL_0" SMALL; Provision "SMALL_1" SMALL] initial_state)).1
  = "SMALL_0"
  /\ (receive_package FirstAvailableStrategy (mkPackage SMALL "customer_1")
        (run [Provision "SMALL_0" SMALL; Provision "SMALL_1" SMALL;
              Allocate FirstAvailableStrategy (mkPackage SMALL "customer_1")]
           initial_state)).1
     = "SMALL_1".
Proof. split; vm_compute; reflexivity. Qed.

End LockerRoundTrip.

(** ** Lockers: the dictionary of lockers by size *)

Section LockerDict.
Import Lockers.
Implicit Types (d : list (PackageSize * list nat)) (k : PackageSize)
  (ls : list nat) (st : State) (r : nat).

Lemma dict_get_Some_elem_of k d ls : dict_get k d = Some ls -> (k, ls) ∈ d.
Proof.
  induction d as [|[k' ls'] d IH]; [done|]. simpl. case_decide as Hk.
  - intros [= <-]. subst k'. left.
  - intros Hg. right. by apply IH.
Qed.

Lemma dict_get_None k d : dict_get k d = None <-> k ∉ d.*1.
Proof.
  induction d as [|[k' ls'] d IH]; simpl.
  - split; [intros _; apply not_elem_of_nil|done].
  - rewrite not_elem_of_cons. case_decide as Hk.
    + split; [done|]. by intros [? _].
    + rewrite IH. split; [by split|by intros [_ ?]].
Qed.

Lemma elem_of_dict_get k d ls :
  NoDup d.*1 -> (k, ls) ∈ d -> dict_get k d = Some ls.
Proof.
  induction d as [|[k' ls'] d IH]; [by rewrite elem_of_nil|].
  rewrite fmap_cons, NoDup_cons, elem_of_cons. simpl. intros [Hk' Hnd] [[= <- <-]|Hin].
  - by rewrite decide_True.
  - rewrite decide_False; [by apply IH|]. intros ->.
    apply Hk'. apply list_elem_of_fmap. by exists (k, ls).
Qed.

Lemma dict_append_get k r d k' :
  dict_get k' (dict_append k r d)
  = if decide (k' = k) then Some (default [] (dict_get k d) ++ [r])
    else dict_get k' d.
Proof.
  induction d as [|[k1 ls1] d IH]; simpl.
  - destruct (decide (k = k')) as [->|Hne].
    + by rewrite decide_True.
    + by rewrite decide_False.
  - destruct (decide (k1 = k)) as [->|Hne]; simpl.
    + destruct (decide (k = k')) as [->|Hne']; [by rewrite decide_True|].
      by rewrite decide_False.
    + destruct (decide (k1 = k')) as [->|Hne']; [by rewrite decide_False|].
      apply IH.
Qed.

Lemma dict_append_keys k r d :
  (dict_append k r d).*1
  = match dict_get k d with Some _ => d.*1 | None => d.*1 ++ [k] end.
Proof.
  induction d as [|[k1 ls1] d IH]; [done|]. cbn [dict_append dict_get].
  destruct (decide (k1 = k)) as [->|Hne]; [done|]. rewrite !fmap_cons, IH.
  by destruct (dict_get k d).
Qed.

Lemma dict_append_NoDup k r d : NoDup d.*1 -> NoDup (dict_append k r d).*1.
Proof.
  intros Hnd. rewrite dict_append_keys.
  destruct (dict_get k d) eqn:E; [done|].
  apply NoDup_app. split_and!; [done| |apply NoDup_singleton].
  intros k' Hin ->%list_elem_of_singleton. by apply dict_get_None in E.
Qed.

Lemma dict_get_snoc k d k' ls :
  dict_get k (d ++ [(k', ls)])
  = match dict_get k d with
    | Some l => Some l
    | None => if decide (k' = k) then Some ls else None
    end.
Proof.
  induction d as [|[k1 ls1] d IH]; simpl; [done|].
  destruct (decide (k1 = k)); [done|apply IH].
Qed.

Lemma dict_getitem_get k d k' :
  default [] (dict_get k' (dict_getitem k d).2) = default [] (dict_get k' d).
Proof.
  unfold dict_getitem. destruct (dict_get k d) eqn:E; [done|]. simpl.
  rewrite dict_get_snoc. destruct (dict_get k' d); [done|]. by case_decide.
Qed.

Lemma dict_getitem_NoDup k d : NoDup d.*1 -> NoDup (dict_getitem k d).2.*1.
Proof.
  intros Hnd. unfold dict_getitem. destruct (dict_get k d) eqn:E; [done|].
  simpl. rewrite fmap_app. apply NoDup_app. split_and!; [done| |apply NoDup_singleton].
  intros k' Hin ->%list_elem_of_singleton. by apply dict_get_None in E.
Qed.

Lemma dict_getitem_pool k d : mjoin (snd <$> (dict_getitem k d).2) = mjoin (snd <$> d).
Proof.
  unfold dict_getitem. destruct (dict_get k d); [done|]. simpl.
  rewrite fmap_app, join_app. simpl. by rewrite app_nil_r.
Qed.

(** A locker is in the pool when it is in the list of some size. *)
Lemma elem_of_pool st r :
  r ∈ pool st <-> exists k ls, (k, ls) ∈ lockers_by_size (manager st) /\ r ∈ ls.
Proof.
  unfold pool. rewrite list_elem_of_join. split.
  - intros (ls & Hr & (e & -> & He)%list_elem_of_fmap).
    destruct e as [k ls]. eauto.
  - intros (k & ls & He & Hr). exists ls. split; [done|].
    apply list_elem_of_fmap. by exists (k, ls).
Qed.

End LockerDict.

(** ** Lockers: what the strategies return *)

Section LockerStrategies.
Import Lockers.
Implicit Types (d : list (PackageSize * list nat)) (k : PackageSize)
  (ls : list nat) (st : State) (r : nat) (p : Package) (s : Strategy).

Lemma dict_wf_initial : dict_wf initial_state.
Proof. split; [constructor|done]. Qed.

Lemma dict_wf_getitem k st :
  dict_wf st ->
  dict_wf (mkState (heap st)
             (mkManager (dict_getitem k (lockers_by_size (manager st))).2
                (lockers_by_customer (manager st)))).
Proof.
  intros [Hnd Hsz]. split; cbn [heap manager lockers_by_size].
  - by apply dict_getitem_NoDup.
  - intros k' ls r Hg Hr.
    pose proof (dict_getitem_get k (lockers_by_size (manager st)) k') as Hd.
    rewrite Hg in Hd. simpl in Hd.
    destruct (dict_get k' (lockers_by_size (manager st))) as [ls0|] eqn:E;
      simpl in Hd; subst ls; [by eapply Hsz|]. by apply elem_of_nil in Hr.
Qed.

Lemma dict_wf_alter (f : Locker -> Locker) r st m' :
  (forall l, locker_size (f l) = locker_size l) ->
  lockers_by_size m' = lockers_by_size (manager st) ->
  dict_wf st -> dict_wf (mkState (alter f r (heap st)) m').
Proof.
  intros Hf Hm [Hnd Hsz]. split; cbn [heap manager]; rewrite Hm; [done|].
  intros k ls r' Hg Hr. rewrite list_lookup_alter. case_decide as Hrr.
  - subst r'. specialize (Hsz k ls r Hg Hr).
    destruct (heap st !! r) as [l|]; [|done]. simpl in *. by rewrite Hf.
  - by eapply Hsz.
Qed.

Lemma dict_wf_provision lid sz st : dict_wf st -> dict_wf (provision_locker lid sz st).
Proof.
  intros [Hnd Hsz]. unfold provision_locker, Locker_init, add_locker.
  cbn [heap manager]. rewrite list_lookup_middle by done.
  split; cbn [heap manager lockers_by_size locker_size].
  - by apply dict_append_NoDup.
  - intros k ls r. rewrite dict_append_get.
    assert (forall ls0 r0, dict_get k (lockers_by_size (manager st)) = Some ls0 ->
              r0 ∈ ls0 ->
              locker_size <$> (heap st ++ [mkLocker lid sz None]) !! r0 = Some k)
      as Hold.
    { intros ls0 r0 Hg Hr0. specialize (Hsz k ls0 r0 Hg Hr0).
      rewrite lookup_app_l; [done|]. apply lookup_lt_is_Some.
      by destruct (heap st !! r0). }
    case_decide as Hk; [|apply Hold]. subst k. intros [= <-].
    rewrite elem_of_app, list_elem_of_singleton. intros [Hr| ->].
    + destruct (dict_get sz (lockers_by_size (manager st))) as [ls0|] eqn:E;
        [by eapply Hold|]. by apply elem_of_nil in Hr.
    + by rewrite list_lookup_middle.
Qed.

Lemma allocate_locker_dict s p st :
  lockers_by_size (manager (allocate_locker s p st).2) = lockers_by_size (manager st)
  \/ exists k, lockers_by_size (manager (allocate_locker s p st).2)
               = (dict_getitem k (lockers_by_size (manager st))).2.
Proof.
  destruct s; simpl.
  - right. exists (package_size p). by rewrite find_available_locker_spec.
  - destruct (most_available_loop _ _ _ _) as [k|]; [|by left].
    right. exists k. by rewrite find_available_locker_spec.
Qed.

Lemma dict_wf_allocate s p st : dict_wf st -> dict_wf (allocate_locker s p st).2.
Proof.
  intros Hwf. destruct (allocate_locker s p st) as [found st1] eqn:Ha.
  pose proof (allocate_locker_dict s p st) as Hd. rewrite Ha in Hd.
  apply allocate_locker_frame in Ha as (Hh & Hi & _). cbn [snd] in *.
  destruct st1 as [h1 [d1 i1]]. simpl in *. subst h1 i1.
  destruct Hd as [->|(k & ->)].
  - by destruct st as [h [d i]].
  - by apply dict_wf_getitem.
Qed.

Lemma dict_wf_step st (op : Op) : dict_wf st -> dict_wf (step st op).
Proof.
  intros Hwf. destruct op as [lid sz|s p|cid]; cbn [step].
  - by apply dict_wf_provision.
  - pose proof (dict_wf_allocate s p st Hwf) as H1. unfold receive_package.
    destruct (allocate_locker s p st) as [[r|] st1]; cbn [snd] in *; [|done].
    unfold store_package. by apply dict_wf_alter.
  - unfold controller_retrieve_package, retrieve_package.
    destruct (lockers_by_customer (manager st) !! cid) as [r|]; cbn [snd]; [|done].
    by apply dict_wf_alter.
Qed.

Lemma dict_wf_run (ops : list Op) st : dict_wf st -> dict_wf (run ops st).
Proof.
  revert st. induction ops as [|op ops IH]; intros st Hwf; [done|].
  apply IH. by apply dict_wf_step.
Qed.

Lemma available_lockers_nil h ls :
  available_lockers h ls = [] <-> forall r, r ∈ ls -> locker_available h r = false.
Proof.
  unfold available_lockers. split.
  - intros He r Hr. apply not_true_is_false. intros Hav.
    assert (r ∈ filter (fun r => locker_available h r = true) ls) as Hin
      by by apply list_elem_of_filter.
    rewrite He in Hin. by apply elem_of_nil in Hin.
  - intros Hall. destruct (filter _ ls) as [|r t] eqn:E; [done|].
    assert (r ∈ filter (fun r => locker_available h r = true) ls) as Hin
      by (rewrite E; left).
    apply list_elem_of_filter in Hin as [Hav Hin]. apply Hall in Hin. congruence.
Qed.

(** [FirstAvailableStrategy] returns an available locker of the size
    of the package, and none exactly when the pool has no such locker. *)
Lemma first_available_locker_spec p st :
  dict_wf st ->
  (forall r, (allocate_locker FirstAvailableStrategy p st).1 = Some r ->
     r ∈ pool st /\ locker_available (heap st) r = true
     /\ locker_size <$> heap st !! r = Some (package_size p))
  /\ ((allocate_locker FirstAvailableStrategy p st).1 = None
      <-> forall r, r ∈ pool st ->
            locker_size <$> heap st !! r = Some (package_size p) ->
            locker_available (heap st) r = false).
Proof.
  intros [Hnd Hsz]. cbn [allocate_locker]. rewrite find_available_locker_spec.
  cbn [fst]. split.
  - intros r Hr. apply head_Some_elem_of in Hr.
    apply list_elem_of_filter in Hr as [Hav Hin].
    destruct (dict_get (package_size p) (lockers_by_size (manager st)))
      as [ls|] eqn:E; [|by apply elem_of_nil in Hin]. simpl in Hin.
    split_and!; [|done|by eapply Hsz].
    apply elem_of_pool. exists (package_size p), ls.
    split; [by apply dict_get_Some_elem_of|done].
  - rewrite head_None, available_lockers_nil. split.
    + intros Hall r (k & ls & He & Hr)%elem_of_pool Hs.
      pose proof (elem_of_dict_get _ _ _ Hnd He) as Hg.
      pose proof (Hsz _ _ _ Hg Hr) as Hk. rewrite Hs in Hk. injection Hk as <-.
      apply Hall. by rewrite Hg.
    + intros Hall r Hr.
      destruct (dict_get (package_size p) (lockers_by_size (manager st)))
        as [ls|] eqn:E; [|by apply elem_of_nil in Hr]. simpl in Hr.
      apply Hall; [|by eapply Hsz].
      apply elem_of_pool. exists (package_size p), ls.
      split; [by apply dict_get_Some_elem_of|done].
Qed.

End LockerStrategies.

Section LockerMostAvailable.
Import Lockers.
Implicit Types (d : list (PackageSize * list nat)) (k : PackageSize)
  (ls : list nat) (st : State) (r : nat) (p : Package).

Lemma free_count_nonneg h ls : (0 <= free_count h ls)%Z.
Proof. unfold free_count. lia. Qed.

(** The loop of [MostAvailableStrategy] keeps the first size whose list
    has the largest number of available lockers. *)
Lemma most_available_loop_keep_min h d (acc : option (PackageSize * list nat)) :
  most_available_loop h d
    (match acc with Some b => free_count h b.2 | None => -1 end) (fst <$> acc)
  = fst <$> foldl (keep_min (neg_free_count h)) acc d.
Proof.
  revert acc. induction d as [|[k ls] d IH]; intros acc; [done|].
  cbn [most_available_loop foldl]. fold (free_count h ls).
  destruct acc as [[kb lsb]|]; cbn [keep_min snd].
  - assert ((neg_free_count h (k, ls) <? neg_free_count h (kb, lsb))%Z
            = (free_count h lsb <? free_count h ls)%Z) as ->.
    { unfold neg_free_count. cbn [snd].
      destruct (Z.ltb_spec (free_count h lsb) (free_count h ls));
        [apply Z.ltb_lt|apply Z.ltb_ge]; lia. }
    rewrite Z.gtb_ltb.
    destruct (free_count h lsb <? free_count h ls)%Z;
      [apply (IH (Some (k, ls)))|apply (IH (Some (kb, lsb)))].
  - rewrite Z.gtb_ltb. rewrite (proj2 (Z.ltb_lt _ _)).
    + apply (IH (Some (k, ls))).
    + pose proof (free_count_nonneg h ls). lia.
Qed.

Lemma free_count_zero h ls :
  free_count h ls = 0%Z <-> forall r, r ∈ ls -> locker_available h r = false.
Proof.
  rewrite <- available_lockers_nil. unfold free_count. split.
  - intros Hz. apply nil_length_inv. lia.
  - by intros ->.
Qed.

(** [MostAvailableStrategy] does not look at the package: it returns
    the first available locker of the first size with the largest number
    of available lockers, and none exactly when no locker of the pool is
    available. *)
Lemma most_available_locker_spec p st :
  dict_wf st ->
  (forall r, (allocate_locker MostAvailableStrategy p st).1 = Some r ->
     r ∈ pool st /\ locker_available (heap st) r = true
     /\ exists k ls,
          first_min (neg_free_count (heap st)) (lockers_by_size (manager st)) (k, ls)
          /\ head (available_lockers (heap st) ls) = Some r)
  /\ ((allocate_locker MostAvailableStrategy p st).1 = None
      <-> forall r, r ∈ pool st -> locker_available (heap st) r = false).
Proof.
  intros [Hnd Hsz]. cbn [allocate_locker].
  rewrite (most_available_loop_keep_min (heap st) _ None).
  destruct (decide (lockers_by_size (manager st) = [])) as [He|Hne].
  { rewrite He. cbn. split; [done|]. split; [|done].
    intros _ r (k & ls & Hin & _)%elem_of_pool. rewrite He in Hin.
    by apply elem_of_nil in Hin. }
  destruct (foldl_keep_min_first_min (neg_free_count (heap st)) _ Hne)
    as ([k ls] & -> & Hmin).
  cbn [fmap option_fmap option_map fst]. rewrite find_available_locker_spec.
  pose proof (first_min_elem_of _ _ _ Hmin) as Hin.
  rewrite (elem_of_dict_get _ _ _ Hnd Hin). cbn [default from_option id fst]. split.
  - intros r Hr. pose proof Hr as Hr'. apply head_Some_elem_of in Hr'.
    apply list_elem_of_filter in Hr' as [Hav Hrin].
    split_and!; [|done|by exists k, ls].
    apply elem_of_pool. by exists k, ls.
  - rewrite head_None, available_lockers_nil. split.
    + intros Hall r (k' & ls' & Hin' & Hr)%elem_of_pool.
      apply free_count_zero in Hall.
      pose proof (first_min_le _ _ _ _ Hmin Hin') as Hle.
      unfold neg_free_count in Hle. cbn [snd] in Hle.
      pose proof (free_count_nonneg (heap st) ls') as Hnn.
      assert (free_count (heap st) ls' = 0%Z) as Hz by lia.
      by eapply free_count_zero.
    + intros Hall r Hr. apply Hall. apply elem_of_pool. by exists k, ls.
Qed.

(** With one free small locker, [MostAvailableStrategy] puts a medium
    package into it, although no medium locker exists. *)
Lemma most_available_ignores_size :
  (allocate_locker MostAvailableStrategy (mkPackage MEDIUM "customer_2")
     (run [Provision "SMALL_0" SMALL] initial_state)).1 = Some 0
  /\ locker_size <$> heap (run [Provision "SMALL_0" SMALL] initial_state) !! 0
     = Some SMALL
  /\ (forall r,
        r ∈ pool (run [Provision "SMALL_0" SMALL] initial_state) ->
        locker_size <$> heap (run [Provision "SMALL_0" SMALL] initial_state) !! r
        <> Some MEDIUM)
  /\ (receive_package MostAvailableStrategy (mkPackage MEDIUM "customer_2")
        (run [Provision "SMALL_0" SMALL] initial_state)).1 = "SMALL_0".
Proof.
  split_and!; try (vm_compute; reflexivity).
  intros r Hr. vm_compute in Hr. apply list_elem_of_singleton in Hr. by subst r.
Qed.

End LockerMostAvailable.

(** ** The singleton manager and the controllers *)

Section LockerSingleton.
Import Lockers.
Implicit Types (w : World) (c : LockerController) (s : Strategy) (p : Package)
  (op : WorldOp).

Lemma LockerManager_new_spec w :
  _instance (LockerManager_new w).2 = Some (LockerManager_new w).1
  /\ lockers (LockerManager_new w).2 = lockers w
  /\ (forall r, _instance w = Some r -> LockerManager_new w = (r, w))
  /\ (instance_valid w -> instance_valid (LockerManager_new w).2).
Proof.
  unfold LockerManager_new, instance_valid.
  destruct (_instance w) as [r0|] eqn:E; cbn [fst snd _instance lockers managers].
  - split_and!; [done|done| |].
    + by intros r [= <-].
    + intros H r Hr. rewrite E in Hr. by apply H.
  - split_and!; [done|done|done|].
    intros _ r [= <-]. rewrite length_app. simpl. lia.
Qed.

Lemma LockerController_init_spec s w :
  LockerController_init s w
  = (mkController s (LockerManager_new w).1, (LockerManager_new w).2).
Proof. unfold LockerController_init. by destruct (LockerManager_new w). Qed.

Lemma on_manager_frame {A : Type} r (dflt : A) (f : State -> A * State) w :
  _instance (on_manager r dflt f w).2 = _instance w
  /\ length (managers (on_manager r dflt f w).2) = length (managers w).
Proof.
  unfold on_manager. destruct (view w r) as [st|]; [|done].
  destruct (f st) as [a st']. cbn [snd commit _instance managers].
  by rewrite length_insert.
Qed.

(** No operation replaces the singleton once it exists. *)
Lemma world_step_instance w op r :
  instance_valid w -> _instance w = Some r ->
  instance_valid (world_step w op) /\ _instance (world_step w op) = Some r.
Proof.
  intros Hv Hi.
  assert (forall (A : Type) r' (dflt : A) f,
            instance_valid (on_manager r' dflt f w).2
            /\ _instance (on_manager r' dflt f w).2 = Some r) as Hon.
  { intros A r' dflt f. destruct (on_manager_frame r' dflt f w) as [H1 H2].
    split; [|congruence]. intros r1. rewrite H1, H2. apply Hv. }
  destruct op as [s|lid sz|c p|c cid]; cbn [world_step].
  - rewrite LockerController_init_spec. cbn [snd].
    destruct (LockerManager_new_spec w) as (_ & _ & Hsome & _).
    by rewrite (Hsome r Hi).
  - destruct (LockerManager_new_spec w) as (_ & _ & Hsome & _).
    rewrite (Hsome r Hi). apply Hon.
  - apply Hon.
  - apply Hon.
Qed.

Lemma world_run_instance ops w r :
  instance_valid w -> _instance w = Some r ->
  instance_valid (world_run ops w) /\ _instance (world_run ops w) = Some r.
Proof.
  revert w. induction ops as [|op ops IH]; intros w Hv Hi; [done|].
  destruct (world_step_instance w op r Hv Hi) as [Hv' Hi']. by apply IH.
Qed.

Lemma world_step_valid w op : instance_valid w -> instance_valid (world_step w op).
Proof.
  intros Hv. destruct (_instance w) as [r|] eqn:Hi.
  { by destruct (world_step_instance w op r Hv Hi). }
  assert (forall (A : Type) r' (dflt : A) f w',
            instance_valid w' -> instance_valid (on_manager r' dflt f w').2) as Hon.
  { intros A r' dflt f w' Hv' r1. destruct (on_manager_frame r' dflt f w') as [-> ->].
    apply Hv'. }
  destruct op as [s|lid sz|c p|c cid]; cbn [world_step].
  - rewrite LockerController_init_spec. cbn [snd].
    by apply LockerManager_new_spec.
  - destruct (LockerManager_new w) as [r1 w1] eqn:En.
    apply Hon. pose proof (LockerManager_new_spec w) as (_ & _ & _ & Hv1).
    rewrite En in Hv1. by apply Hv1.
  - by apply Hon.
  - by apply Hon.
Qed.

Lemma world_run_valid ops w : instance_valid w -> instance_valid (world_run ops w).
Proof.
  revert w. induction ops as [|op ops IH]; intros w Hv; [done|].
  apply IH. by apply world_step_valid.
Qed.

Lemma view_commit w r st st' :
  view w r = Some st -> view (commit w r st') r = Some st'.
Proof.
  unfold view, commit. cbn [managers lockers].
  destruct (managers w !! r) as [m|] eqn:E; [|done]. intros _.
  rewrite list_lookup_insert_eq by (by eapply lookup_lt_Some).
  by destruct st'.
Qed.

(** C10. Every [LockerController], whenever it is constructed and with
    whatever strategy, holds the one [LockerManager] object of the
    process: a controller constructed after any operations holds the
    same manager as an earlier one, its construction changes no locker,
    no manager and no index entry, and a package received through one
    controller is found through the other. *)
Theorem controllers_share_singleton (ops1 ops2 : list WorldOp) (s1 s2 : Strategy)
    (p : Package) :
  locker_manager
    (LockerController_init s2
       (world_run ops2 (LockerController_init s1 (world_run ops1 initial_world)).2)).1
  = locker_manager (LockerController_init s1 (world_run ops1 initial_world)).1
  /\ (LockerController_init s2
        (world_run ops2 (LockerController_init s1 (world_run ops1 initial_world)).2)).2
     = world_run ops2 (LockerController_init s1 (world_run ops1 initial_world)).2
  /\ is_Some
       (view (world_run ops2 (LockerController_init s1 (world_run ops1 initial_world)).2)
          (locker_manager (LockerController_init s1 (world_run ops1 initial_world)).1))
  /\ forall (r : nat) (st st1 : State),
       view (world_run ops2 (LockerController_init s1 (world_run ops1 initial_world)).2)
         (locker_manager (LockerController_init s1 (world_run ops1 initial_world)).1)
       = Some st ->
       allocate_locker s1 p st = (Some r, st1) ->
       ctl_find_locker_by_customer
         (LockerController_init s2
            (world_run ops2
               (LockerController_init s1 (world_run ops1 initial_world)).2)).1
         (customer_id p)
         (ctl_receive_package
            (LockerController_init s1 (world_run ops1 initial_world)).1 p
            (LockerController_init s2
               (world_run ops2
                  (LockerController_init s1 (world_run ops1 initial_world)).2)).2).2
       = Some r.
Proof.
  set (w0 := world_run ops1 initial_world).
  assert (instance_valid w0) as Hv0.
  { apply world_run_valid. by intros r0. }
  rewrite !(LockerController_init_spec s1 w0). cbn [fst snd locker_manager].
  destruct (LockerManager_new_spec w0) as (Hi1 & _ & _ & Hv1).
  specialize (Hv1 Hv0).
  set (w1 := (LockerManager_new w0).2) in *.
  set (r1 := (LockerManager_new w0).1) in *.
  destruct (world_run_instance ops2 w1 r1 Hv1 Hi1) as [Hv2 Hi2].
  set (w2 := world_run ops2 w1) in *.
  rewrite !(LockerController_init_spec s2 w2). cbn [fst snd locker_manager].
  destruct (LockerManager_new_spec w2) as (_ & _ & Hsome & _).
  rewrite (Hsome r1 Hi2). cbn [fst snd].
  split_and!; [done|done| |].
  - unfold view. destruct (lookup_lt_is_Some_2 (managers w2) r1) as [m ->]; [|done].
    by apply Hv2.
  - intros r st st1 Hview Ha.
    unfold ctl_find_locker_by_customer, ctl_receive_package, on_manager.
    cbn [locker_manager allocation_strategy]. rewrite Hview.
    destruct (receive_package s1 p st) as [a st'] eqn:Hr. cbn [snd].
    rewrite (view_commit _ _ _ _ Hview). cbn [mbind option_bind].
    unfold find_locker_by_customer.
    destruct (receive_package_stored s1 p st r st1 Ha) as (_ & _ & Hidx & _).
    by rewrite Hr in Hidx.
Qed.

Lemma controllers_share_singleton_witness :
  view (world_run [AddLocker "SMALL_0" SMALL]
          (LockerController_init FirstAvailableStrategy
             (world_run [] initial_world)).2)
    (locker_manager
       (LockerController_init FirstAvailableStrategy (world_run [] initial_world)).1)
  = Some (run [Provision "SMALL_0" SMALL] initial_state)
  /\ allocate_locker FirstAvailableStrategy (mkPackage SMALL "customer_1")
       (run [Provision "SMALL_0" SMALL] initial_state)
     = (Some 0, run [Provision "SMALL_0" SMALL] initial_state)
  /\ ctl_find_locker_by_customer
       (LockerController_init MostAvailableStrategy
          (world_run [AddLocker "SMALL_0" SMALL]
             (LockerController_init FirstAvailableStrategy
                (world_run [] initial_world)).2)).1
       "customer_1"
       (ctl_receive_package
          (LockerController_init FirstAvailableStrategy (world_run [] initial_world)).1
          (mkPackage SMALL "customer_1")
          (LockerController_init MostAvailableStrategy
             (world_run [AddLocker "SMALL_0" SMALL]
                (LockerController_init FirstAvailableStrategy
                   (world_run [] initial_world)).2)).2).2
     = Some 0.
Proof.
  assert (view (world_run [AddLocker "SMALL_0" SMALL]
                  (LockerController_init FirstAvailableStrategy
                     (world_run [] initial_world)).2)
            (locker_manager
               (LockerController_init FirstAvailableStrategy
                  (world_run [] initial_world)).1)
          = Some (run [Provision "SMALL_0" SMALL] initial_state)) as Hview
    by (vm_compute; reflexivity).
  assert (allocate_locker FirstAvailableStrategy (mkPackage SMALL "customer_1")
            (run [Provision "SMALL_0" SMALL] initial_state)
          = (Some 0, run [Provision "SMALL_0" SMALL] initial_state)) as Ha
    by (vm_compute; reflexivity).
  split_and!; [exact Hview|exact Ha|].
  exact (proj2 (proj2 (proj2
    (controllers_share_singleton [] [AddLocker "SMALL_0" SMALL]
       FirstAvailableStrategy MostAvailableStrategy (mkPackage SMALL "customer_1"))))
    0 _ _ Hview Ha).
Defined.

End LockerSingleton.

(** ** The claims that concern both allocators *)

Section Allocators.
Implicit Types (levels : list Parking.ParkingLevel) (v : Parking.Vehicle)
  (st : Lockers.State) (p : Lockers.Package).

Lemma candidates_nil s v levels :
  Parking.candidates s v levels = []
  <-> forall r spot, Parking.lookup_spot levels r = Some spot ->
        Parking.vehicle spot = None -> Parking.can_fit s v spot = false.
Proof.
  split.
  - intros He r spot Hl Hfree. apply not_true_is_false. intros Hfit.
    assert ((r, spot) ∈ Parking.candidates s v levels) as Hin
      by by apply elem_of_candidates.
    rewrite He in Hin. by apply elem_of_nil in Hin.
  - intros Hall. destruct (Parking.candidates s v levels) as [|f t] eqn:E; [done|].
    assert (f ∈ Parking.candidates s v levels) as Hin by (rewrite E; left).
    apply elem_of_candidates in Hin as (Hl & Hfree & Hfit).
    rewrite (Hall _ _ Hl Hfree) in Hfit. done.
Qed.

(** C3 (amended). The three parking strategies return only spots of the
    lot that are free and fit the vehicle, and return [None] exactly
    when no spot is free and fits; [FirstAvailableStrategy] and
    [ClosestToEntranceStrategy] never raise, [BestFitStrategy] does not
    raise when the free fitting spots have sizes of its dictionary.
    For lockers, [FirstAvailableStrategy] returns an available locker of
    the package's size and [None] exactly when the pool has none, while
    [MostAvailableStrategy] disregards the package: it returns the first
    available locker of the first size with the most available lockers,
    and [None] exactly when no locker of the pool is available. *)
Theorem strategy_selection :
  (forall s v levels,
     (forall f, Parking.find_spot s v levels = Ok (Some f) ->
        Parking.lookup_spot levels f.1 = Some f.2
        /\ Parking.vehicle f.2 = None /\ Parking.can_fit s v f.2 = true)
     /\ (Parking.find_spot s v levels = Ok None
         <-> forall r spot, Parking.lookup_spot levels r = Some spot ->
               Parking.vehicle spot = None -> Parking.can_fit s v spot = false)
     /\ (s <> Parking.BestFitStrategy
         \/ Forall Parking.known_size (Parking.candidates s v levels) ->
         exists o, Parking.find_spot s v levels = Ok o))
  /\ (forall ops p,
        (forall r,
           (Lockers.allocate_locker Lockers.FirstAvailableStrategy p
              (Lockers.run ops Lockers.initial_state)).1 = Some r ->
           r ∈ Lockers.pool (Lockers.run ops Lockers.initial_state)
           /\ Lockers.locker_available
                (Lockers.heap (Lockers.run ops Lockers.initial_state)) r = true
           /\ Lockers.locker_size
                <$> Lockers.heap (Lockers.run ops Lockers.initial_state) !! r
              = Some (Lockers.package_size p))
        /\ ((Lockers.allocate_locker Lockers.FirstAvailableStrategy p
               (Lockers.run ops Lockers.initial_state)).1 = None
            <-> forall r,
                  r ∈ Lockers.pool (Lockers.run ops Lockers.initial_state) ->
                  Lockers.locker_size
                    <$> Lockers.heap (Lockers.run ops Lockers.initial_state) !! r
                  = Some (Lockers.package_size p) ->
                  Lockers.locker_available
                    (Lockers.heap (Lockers.run ops Lockers.initial_state)) r = false)
        /\ (forall r,
              (Lockers.allocate_locker Lockers.MostAvailableStrategy p
                 (Lockers.run ops Lockers.initial_state)).1 = Some r ->
              r ∈ Lockers.pool (Lockers.run ops Lockers.initial_state)
              /\ Lockers.locker_available
                   (Lockers.heap (Lockers.run ops Lockers.initial_state)) r = true
              /\ exists k ls,
                   first_min
                     (Lockers.neg_free_count
                        (Lockers.heap (Lockers.run ops Lockers.initial_state)))
                     (Lockers.lockers_by_size
                        (Lockers.manager (Lockers.run ops Lockers.initial_state)))
                     (k, ls)
                   /\ head (Lockers.available_lockers
                              (Lockers.heap (Lockers.run ops Lockers.initial_state))
                              ls) = Some r)
        /\ ((Lockers.allocate_locker Lockers.MostAvailableStrategy p
               (Lockers.run ops Lockers.initial_state)).1 = None
            <-> forall r,
                  r ∈ Lockers.pool (Lockers.run ops Lockers.initial_state) ->
                  Lockers.locker_available
                    (Lockers.heap (Lockers.run ops Lockers.initial_state)) r = false)).
Proof.
  split.
  - intros s v levels. split_and!.
    + intros f Hf. apply elem_of_candidates. by apply find_spot_sound.
    + rewrite find_spot_none. apply candidates_nil.
    + apply find_spot_no_raise.
  - intros ops p.
    assert (Lockers.dict_wf (Lockers.run ops Lockers.initial_state)) as Hwf
      by apply dict_wf_run, dict_wf_initial.
    destruct (first_available_locker_spec p _ Hwf) as [F1 F2].
    destruct (most_available_locker_spec p _ Hwf) as [M1 M2].
    by split_and!.
Qed.

Lemma strategy_selection_witness :
  Parking.find_spot Parking.ClosestToEntranceStrategy
    (Parking.mkVehicle Parking.Car "ABC123") Parking.usage_lot
  = Ok (Some ((0, 1), Parking.ParkingSpot_init "A2" "large" 5))
  /\ Parking.lookup_spot Parking.usage_lot (0, 1)
     = Some (Parking.ParkingSpot_init "A2" "large" 5)
  /\ Parking.can_fit Parking.ClosestToEntranceStrategy
       (Parking.mkVehicle Parking.Car "ABC123")
       (Parking.ParkingSpot_init "A2" "large" 5) = true.
Proof.
  assert (Parking.find_spot Parking.ClosestToEntranceStrategy
            (Parking.mkVehicle Parking.Car "ABC123") Parking.usage_lot
          = Ok (Some ((0, 1), Parking.ParkingSpot_init "A2" "large" 5))) as Hf
    by (vm_compute; reflexivity).
  destruct (proj1 (proj1 strategy_selection Parking.ClosestToEntranceStrategy
                     (Parking.mkVehicle Parking.Car "ABC123") Parking.usage_lot)
              _ Hf) as (Hl & _ & Hfit).
  split_and!; [exact Hf|exact Hl|exact Hfit].
Defined.

(** C2 (amended). Neither allocator checks whether the owner already
    holds a unit. Whenever the strategy finds a unit for a vehicle that
    already stands in a spot, or for a package whose customer already
    has a locker, the call succeeds: it returns the new unit, the old
    unit stays occupied by the same owner, and for lockers the
    customer's index entry now points at the new locker. *)
Theorem allocate_without_owner_check :
  (forall s v levels q sq f,
     Parking.lookup_spot levels q = Some sq -> Parking.vehicle sq = Some v ->
     Parking.find_spot s v levels = Ok (Some f) ->
     f.1 <> q
     /\ Parking.park_vehicle v (Parking.mkController levels s)
        = Ok (Parking.parked_message v f.2,
              Parking.mkController
                (Parking.update_spot (Parking.spot_park_vehicle v) f.1 levels) s)
     /\ Parking.lookup_spot
          (Parking.update_spot (Parking.spot_park_vehicle v) f.1 levels) q = Some sq
     /\ Parking.lookup_spot
          (Parking.update_spot (Parking.spot_park_vehicle v) f.1 levels) f.1
        = Some (Parking.spot_park_vehicle v f.2))
  /\ (forall s p st r0 r st1,
        Lockers.lockers_by_customer (Lockers.manager st) !! Lockers.customer_id p
        = Some r0 ->
        Lockers.occupant st r0 = Some (Lockers.customer_id p) ->
        Lockers.allocate_locker s p st = (Some r, st1) ->
        r <> r0
        /\ (Lockers.receive_package s p st).1
           = from_option Lockers.locker_id "" (Lockers.heap st !! r)
        /\ Lockers.lockers_by_customer
             (Lockers.manager (Lockers.receive_package s p st).2)
             !! Lockers.customer_id p = Some r
        /\ Lockers.occupant (Lockers.receive_package s p st).2 r
           = Some (Lockers.customer_id p)
        /\ Lockers.occupant (Lockers.receive_package s p st).2 r0
           = Some (Lockers.customer_id p)).
Proof.
  split.
  - intros s v levels q sq f. apply park_vehicle_again.
  - intros s p st r0 r st1. apply receive_package_again.
Qed.

Lemma allocate_without_owner_check_witness :
  Parking.lookup_spot
    (Parking.update_spot
       (Parking.spot_park_vehicle (Parking.mkVehicle Parking.Car "ABC123")) (0, 0)
       Parking.two_compact_lot) (0, 0)
  = Some (Parking.spot_park_vehicle (Parking.mkVehicle Parking.Car "ABC123")
            (Parking.ParkingSpot_init "A1" "compact" 10))
  /\ Parking.find_spot Parking.BestFitStrategy (Parking.mkVehicle Parking.Car "ABC123")
       (Parking.update_spot
          (Parking.spot_park_vehicle (Parking.mkVehicle Parking.Car "ABC123")) (0, 0)
          Parking.two_compact_lot)
     = Ok (Some ((0, 1), Parking.ParkingSpot_init "A2" "compact" 20))
  /\ Parking.park_vehicle (Parking.mkVehicle Parking.Car "ABC123")
       (Parking.mkController
          (Parking.update_spot
             (Parking.spot_park_vehicle (Parking.mkVehicle Parking.Car "ABC123"))
             (0, 0) Parking.two_compact_lot)
          Parking.BestFitStrategy)
     = Ok (Parking.parked_message (Parking.mkVehicle Parking.Car "ABC123")
             (Parking.ParkingSpot_init "A2" "compact" 20),
           Parking.mkController
             (Parking.update_spot
                (Parking.spot_park_vehicle (Parking.mkVehicle Parking.Car "ABC123"))
                (0, 1)
                (Parking.update_spot
                   (Parking.spot_park_vehicle (Parking.mkVehicle Parking.Car "ABC123"))
                   (0, 0) Parking.two_compact_lot))
             Parking.BestFitStrategy).
Proof.
  assert (Parking.lookup_spot
            (Parking.update_spot
               (Parking.spot_park_vehicle (Parking.mkVehicle Parking.Car "ABC123"))
               (0, 0) Parking.two_compact_lot) (0, 0)
          = Some (Parking.spot_park_vehicle (Parking.mkVehicle Parking.Car "ABC123")
                    (Parking.ParkingSpot_init "A1" "compact" 10))) as Hq
    by (vm_compute; reflexivity).
  assert (Parking.find_spot Parking.BestFitStrategy
            (Parking.mkVehicle Parking.Car "ABC123")
            (Parking.update_spot
               (Parking.spot_park_vehicle (Parking.mkVehicle Parking.Car "ABC123"))
               (0, 0) Parking.two_compact_lot)
          = Ok (Some ((0, 1), Parking.ParkingSpot_init "A2" "compact" 20))) as Hf
    by (vm_compute; reflexivity).
  split_and!; [exact Hq|exact Hf|].
  exact (proj1 (proj2 (proj1 allocate_without_owner_check _ _ _ _ _ _
                         Hq eq_refl Hf))).
Defined.

(** C9 (amended). Provisioning appends the new unit, empty, at the end
    of its container and creates the container when it is new: the
    first level with the given id, or a new last level, for a parking
    spot; the list of the locker's size, or a new last dictionary key,
    for a locker. Nothing is validated, unit ids included. *)
Theorem provision_appends :
  (forall lid sid sz d c,
     Parking.allocation_strategy (Parking.add_parking_spot lid sid sz d c)
     = Parking.allocation_strategy c
     /\ Parking.vehicle (Parking.ParkingSpot_init sid sz d) = None
     /\ Parking.parking_lot (Parking.add_parking_spot lid sid sz d c)
        = match list_find (fun level => Parking.level_id level = lid)
                  (Parking.parking_lot c) with
          | Some (i, level) =>
              <[i := Parking.mkLevel (Parking.level_id level)
                       (Parking.spots level ++ [Parking.ParkingSpot_init sid sz d])]>
                (Parking.parking_lot c)
          | None =>
              Parking.parking_lot c
              ++ [Parking.mkLevel lid [Parking.ParkingSpot_init sid sz d]]
          end)
  /\ (forall lid sz st,
        Lockers.heap (Lockers.provision_locker lid sz st)
        = Lockers.heap st ++ [Lockers.mkLocker lid sz None]
        /\ Lockers.lockers_by_customer
             (Lockers.manager (Lockers.provision_locker lid sz st))
           = Lockers.lockers_by_customer (Lockers.manager st)
        /\ (Lockers.lockers_by_size
              (Lockers.manager (Lockers.provision_locker lid sz st))).*1
           = match Lockers.dict_get sz (Lockers.lockers_by_size (Lockers.manager st)) with
             | Some _ => (Lockers.lockers_by_size (Lockers.manager st)).*1
             | None => (Lockers.lockers_by_size (Lockers.manager st)).*1 ++ [sz]
             end
        /\ forall k,
             Lockers.dict_get k
               (Lockers.lockers_by_size
                  (Lockers.manager (Lockers.provision_locker lid sz st)))
             = if decide (k = sz)
               then Some (default []
                            (Lockers.dict_get sz
                               (Lockers.lockers_by_size (Lockers.manager st)))
                          ++ [length (Lockers.heap st)])
               else Lockers.dict_get k (Lockers.lockers_by_size (Lockers.manager st))).
Proof.
  split.
  - intros lid sid sz d c. split_and!; [done|done|].
    apply add_parking_spot_levels_spec.
  - intros lid sz st.
    unfold Lockers.provision_locker, Lockers.Locker_init, Lockers.add_locker.
    cbn [Lockers.heap Lockers.manager]. rewrite list_lookup_middle by done.
    cbn [Lockers.heap Lockers.manager Lockers.lockers_by_size
           Lockers.lockers_by_customer Lockers.locker_size].
    split_and!; [done|done|apply dict_append_keys|].
    intros k. apply dict_append_get.
Qed.

(** A locker id that is already in use is accepted as well. *)
Lemma provision_locker_same_id :
  Lockers.locker_id
    <$> Lockers.heap
          (Lockers.run [Lockers.Provision "SMALL_0" Lockers.SMALL;
                        Lockers.Provision "SMALL_0" Lockers.SMALL]
             Lockers.initial_state)
  = ["SMALL_0"; "SMALL_0"].
Proof. reflexivity. Qed.

End Allocators.

(** ** Parking and unparking

    The parking lot keeps no owner index: a spot is released by its id,
    and [unpark_vehicle] empties the first occupied spot with that id. *)

Section ParkingRoundTrip.
Import Parking.
Implicit Types (v : Vehicle) (levels : list ParkingLevel)
  (f : nat * nat * ParkingSpot) (s : Strategy).

Lemma unpark_spots_flat sid li si ss :
  unpark_spots sid li si ss
  = head (filter (fun f => occupied_with_id sid f = true) (enum_spots li si ss)).
Proof.
  revert si. induction ss as [|spot rest IH]; intros si; [done|].
  cbn [unpark_spots enum_spots]. rewrite filter_cons.
  case_decide as E; [|apply not_true_is_false in E];
    unfold occupied_with_id in E; cbn [snd] in E; rewrite E; [done|apply IH].
Qed.

Lemma unpark_levels_flat sid li levels :
  unpark_levels sid li levels
  = head (filter (fun f => occupied_with_id sid f = true) (enum_levels li levels)).
Proof.
  revert li. induction levels as [|level rest IH]; intros li; [done|].
  cbn [unpark_levels enum_levels].
  rewrite filter_app, head_app_filter, <- unpark_spots_flat.
  destruct (unpark_spots sid li 0 (spots level)); [done|]. apply IH.
Qed.

Lemma filter_touch_only (Q : nat * nat * ParkingSpot -> Prop)
    `{forall f, Decision (Q f)} g (l : list (nat * nat * ParkingSpot)) x :
  NoDup l.*1 -> x ∈ l -> (forall y, y ∈ l -> y.1 <> x.1 -> ~ Q y) ->
  Q (x.1, g x.2) ->
  filter Q (touch g x.1 <$> l) = [(x.1, g x.2)].
Proof.
  intros Hnd Hin Hother Hx. induction l as [|y l IH]; [by apply elem_of_nil in Hin|].
  rewrite fmap_cons in Hnd. apply NoDup_cons in Hnd as [Hy Hnd].
  rewrite fmap_cons, filter_cons.
  destruct (decide (y.1 = x.1)) as [Heq|Hne].
  - assert (y = x) as ->.
    { apply elem_of_cons in Hin as [->|Hin]; [done|]. exfalso. apply Hy.
      rewrite Heq. by apply list_elem_of_fmap_2. }
    assert (touch g x.1 x = (x.1, g x.2)) as ->
      by (unfold touch; by rewrite decide_True).
    rewrite decide_True by done. f_equal. rewrite touch_absent by done.
    destruct (filter Q l) as [|z t] eqn:E; [done|]. exfalso.
    assert (z ∈ filter Q l) as Hz by (rewrite E; left).
    apply list_elem_of_filter in Hz as [HQ Hz].
    apply (Hother z); [by right| |done].
    intros Heq'. apply Hy. rewrite <- Heq'. by apply list_elem_of_fmap_2.
  - assert (touch g x.1 y = y) as -> by (unfold touch; by rewrite decide_False).
    rewrite decide_False by (apply Hother; [left|done]).
    apply IH; [done| |].
    + apply elem_of_cons in Hin as [->|Hin]; [done|done].
    + intros z Hz. apply Hother. by right.
Qed.

Lemma update_spot_undo g1 g2 r levels spot :
  lookup_spot levels r = Some spot -> g1 (g2 spot) = spot ->
  update_spot g1 r (update_spot g2 r levels) = levels.
Proof.
  unfold lookup_spot, update_spot. destruct r as [a b]. cbn [fst snd].
  intros Hl Hg. apply list_eq. intros i.
  destruct (decide (a = i)) as [<-|Hi]; [|by rewrite !list_lookup_alter_ne].
  rewrite !list_lookup_alter_eq.
  destruct (levels !! a) as [level|]; [|done]. simpl. f_equal.
  destruct level as [lid ss]. cbn [level_id spots] in *. f_equal.
  apply list_eq. intros j.
  destruct (decide (b = j)) as [<-|Hj]; [|by rewrite !list_lookup_alter_ne].
  rewrite !list_lookup_alter_eq, Hl. simpl. by rewrite Hg.
Qed.

(** When no occupied spot of the lot carries the id of the spot the
    strategy selects, parking a vehicle and then unparking by this id
    gives back the lot as it was. *)
Lemma park_unpark_round_trip s v levels f :
  find_spot s v levels = Ok (Some f) ->
  (forall g, g ∈ all_spots levels -> spot_id g.2 = spot_id f.2 -> vehicle g.2 = None) ->
  exists c1,
    park_vehicle v (mkController levels s) = Ok (parked_message v f.2, c1)
    /\ unpark_vehicle (spot_id f.2) c1
       = (removed_message (license_plate v) (spot_id f.2), mkController levels s).
Proof.
  intros Hf Hids. pose proof (find_spot_sound _ _ _ _ Hf) as Hc.
  apply elem_of_candidates in Hc as (Hl & Hfree & _).
  exists (mkController (update_spot (spot_park_vehicle v) f.1 levels) s). split.
  { unfold park_vehicle. cbn [allocation_strategy parking_lot]. rewrite Hf.
    cbn [rbind]. by destruct f as [r spot]. }
  unfold unpark_vehicle. cbn [parking_lot allocation_strategy].
  rewrite unpark_levels_flat. fold (all_spots (update_spot (spot_park_vehicle v) f.1 levels)).
  rewrite all_spots_update.
  rewrite (filter_touch_only _ (spot_park_vehicle v) _ f).
  - cbn [head vehicle spot_park_vehicle snd fst from_option].
    rewrite (update_spot_undo _ _ _ _ f.2); [done|done|].
    destruct f as [r [sid sz d veh]]. cbn [snd vehicle] in *. by subst veh.
  - apply NoDup_all_spots.
  - destruct f as [r spot]. by apply elem_of_all_spots.
  - intros g Hg _. unfold occupied_with_id. intros HQ.
    apply andb_true_iff in HQ as [Hid Hocc]. apply String.eqb_eq in Hid.
    unfold is_available in Hocc. by rewrite (Hids g Hg Hid) in Hocc.
  - unfold occupied_with_id. cbn [snd spot_park_vehicle spot_id is_available vehicle].
    by rewrite String.eqb_refl.
Qed.

(** With an occupied spot of the same id declared earlier, unparking by
    the id empties that spot instead. *)
Example unpark_same_id_takes_first :
  exists c0 c1 c2,
    park_vehicles [mkVehicle Car "ABC123"]
      (add_parking_spot "L1" "A1" "large" 7
         (add_parking_spot "L1" "A1" "compact" 10
            (ParkingLotController_init FirstAvailableStrategy)))
    = Ok (["Vehicle ABC123 parked in spot A1"], c0)
    /\ park_vehicle (mkVehicle Car "DEF456") c0
       = Ok ("Vehicle DEF456 parked in spot A1", c1)
    /\ unpark_vehicle "A1" c1 = ("Vehicle ABC123 removed from spot A1", c2).
Proof. do 3 eexists. split_and!; vm_compute; reflexivity. Qed.

End ParkingRoundTrip.

(** ** Further properties of the parking controller *)

Section ParkingFrame.
Import Parking.
Implicit Types (v : Vehicle) (levels : list ParkingLevel)
  (f : nat * nat * ParkingSpot) (s : Strategy) (c : ParkingLotController).

Lemma parked_message_not_no_spot v spot : parked_message v spot <> no_spot_message.
Proof. unfold parked_message, no_spot_message. simpl. discriminate. Qed.

Lemma park_vehicle_found v c f :
  find_spot (allocation_strategy c) v (parking_lot c) = Ok (Some f) ->
  park_vehicle v c
  = Ok (parked_message v f.2,
        mkController (update_spot (spot_park_vehicle v) f.1 (parking_lot c))
          (allocation_strategy c)).
Proof. intros Hf. unfold park_vehicle. rewrite Hf. by destruct f as [r spot]. Qed.

Lemma park_vehicle_none v c :
  find_spot (allocation_strategy c) v (parking_lot c) = Ok None ->
  park_vehicle v c = Ok (no_spot_message, c).
Proof. intros Hf. unfold park_vehicle. by rewrite Hf. Qed.

(** [park_vehicle] answers "No available spot" exactly when no spot of the
    lot is free and fits the vehicle, and then the controller is left as
    it was. *)
Theorem park_vehicle_no_spot v c c' :
  park_vehicle v c = Ok (no_spot_message, c')
  <-> candidates (allocation_strategy c) v (parking_lot c) = [] /\ c' = c.
Proof.
  split.
  - destruct (find_spot (allocation_strategy c) v (parking_lot c))
      as [[f|]|e] eqn:Hf.
    + rewrite (park_vehicle_found _ _ _ Hf).
      intros [= Hm _]; by apply parked_message_not_no_spot in Hm.
    + rewrite (park_vehicle_none _ _ Hf). intros [= <-].
      split; [|done]. by apply find_spot_none.
    + unfold park_vehicle. by rewrite Hf.
  - intros [He ->]. apply park_vehicle_none. by apply find_spot_none.
Qed.

Lemma level_ids_update_spot g r levels :
  level_id <$> update_spot g r levels = level_id <$> levels.
Proof.
  unfold update_spot. apply list_eq. intros i.
  rewrite !list_lookup_fmap, list_lookup_alter.
  case_decide as Hi; [|done]. subst i. by destruct (levels !! r.1).
Qed.

Lemma spot_description_update_spot g r levels r' :
  (forall spot, spot_description (g spot) = spot_description spot) ->
  spot_description <$> lookup_spot (update_spot g r levels) r'
  = spot_description <$> lookup_spot levels r'.
Proof.
  intros Hg. rewrite lookup_update_spot. case_decide as Hr; [|done]. subst r'.
  destruct (lookup_spot levels r) as [spot|]; [|done]. simpl. by rewrite Hg.
Qed.

(** A successful [park_vehicle] fills one spot that was empty and touches
    nothing else: every other spot, in particular every spot that holds a
    vehicle, is as before, and no spot changes its id, size or distance. *)
Theorem park_vehicle_frame v c msg c' :
  park_vehicle v c = Ok (msg, c') ->
  allocation_strategy c' = allocation_strategy c
  /\ level_id <$> parking_lot c' = level_id <$> parking_lot c
  /\ (forall r, spot_description <$> lookup_spot (parking_lot c') r
                = spot_description <$> lookup_spot (parking_lot c) r)
  /\ (forall r spot w, lookup_spot (parking_lot c) r = Some spot ->
        vehicle spot = Some w -> lookup_spot (parking_lot c') r = Some spot)
  /\ (msg <> no_spot_message ->
      exists r spot,
        lookup_spot (parking_lot c) r = Some spot /\ vehicle spot = None
        /\ msg = parked_message v spot
        /\ lookup_spot (parking_lot c') r = Some (spot_park_vehicle v spot)
        /\ forall r', r' <> r ->
             lookup_spot (parking_lot c') r' = lookup_spot (parking_lot c) r').
Proof.
  destruct (find_spot (allocation_strategy c) v (parking_lot c))
    as [[f|]|e] eqn:Hf.
  - rewrite (park_vehicle_found _ _ _ Hf). intros [= <- <-].
    cbn [allocation_strategy parking_lot].
    pose proof (find_spot_sound _ _ _ _ Hf) as Hc.
    apply elem_of_candidates in Hc as (Hl & Hfree & _).
    split_and!; [done|apply level_ids_update_spot| | |].
    + intros r. by apply spot_description_update_spot.
    + intros r spot w Hr Hw. rewrite lookup_update_spot.
      rewrite decide_False; [done|]. intros ->. congruence.
    + intros _. exists f.1, f.2. split_and!; [done|done|done| |].
      * rewrite lookup_update_spot, decide_True by done. by rewrite Hl.
      * intros r' Hr'. rewrite lookup_update_spot. by rewrite decide_False.
  - rewrite (park_vehicle_none _ _ Hf). intros [= <- <-].
    split_and!; try done.
  - unfold park_vehicle. by rewrite Hf.
Qed.

Lemma park_vehicle_frame_witness :
  park_vehicle (mkVehicle Car "ABC123")
    (mkController usage_lot ClosestToEntranceStrategy)
  = Ok ("Vehicle ABC123 parked in spot A2",
        mkController
          (update_spot (spot_park_vehicle (mkVehicle Car "ABC123")) (0, 1) usage_lot)
          ClosestToEntranceStrategy)
  /\ level_id
       <$> update_spot (spot_park_vehicle (mkVehicle Car "ABC123")) (0, 1) usage_lot
     = level_id <$> usage_lot.
Proof.
  assert (park_vehicle (mkVehicle Car "ABC123")
            (mkController usage_lot ClosestToEntranceStrategy)
          = Ok ("Vehicle ABC123 parked in spot A2",
                mkController
                  (update_spot (spot_park_vehicle (mkVehicle Car "ABC123")) (0, 1)
                     usage_lot)
                  ClosestToEntranceStrategy)) as Hp by (vm_compute; reflexivity).
  split; [exact Hp|].
  exact (proj1 (proj2 (park_vehicle_frame _ _ _ _ Hp))).
Defined.

End ParkingFrame.

Section ParkingUnpark.
Import Parking.
Implicit Types (v : Vehicle) (levels : list ParkingLevel)
  (f : nat * nat * ParkingSpot) (s : Strategy) (c : ParkingLotController).

Lemma occupied_with_id_spec sid f :
  occupied_with_id sid f = true
  <-> spot_id f.2 = sid /\ exists w, vehicle f.2 = Some w.
Proof.
  unfold occupied_with_id, is_available. rewrite andb_true_iff, String.eqb_eq.
  destruct (vehicle f.2) as [w|]; simpl.
  - split; [intros [? _]; eauto|by intros [? _]].
  - split; [by intros [_ ?]|by intros [_ [w ?]]].
Qed.

Lemma unpark_vehicle_found sid c r spot :
  unpark_levels sid 0 (parking_lot c) = Some (r, spot) ->
  unpark_vehicle sid c
  = (removed_message (from_option license_plate "" (vehicle spot)) sid,
     mkController (update_spot spot_remove_vehicle r (parking_lot c))
       (allocation_strategy c)).
Proof. intros Hu. unfold unpark_vehicle. by rewrite Hu. Qed.

Lemma unpark_vehicle_none sid c :
  unpark_levels sid 0 (parking_lot c) = None ->
  unpark_vehicle sid c = (not_found_message, c).
Proof. intros Hu. unfold unpark_vehicle. by rewrite Hu. Qed.

Lemma unpark_levels_none sid levels :
  unpark_levels sid 0 levels = None
  <-> forall r spot, lookup_spot levels r = Some spot -> spot_id spot = sid ->
        vehicle spot = None.
Proof.
  rewrite unpark_levels_flat. fold (all_spots levels). rewrite head_None. split.
  - intros He r spot Hl Hid. destruct (vehicle spot) as [w|] eqn:Hw; [|done].
    assert ((r, spot) ∈ filter (fun f => occupied_with_id sid f = true)
                          (all_spots levels)) as Hin.
    { apply list_elem_of_filter. split; [|by apply elem_of_all_spots].
      apply occupied_with_id_spec. eauto. }
    rewrite He in Hin. by apply elem_of_nil in Hin.
  - intros Hall. destruct (filter _ (all_spots levels)) as [|[r spot] t] eqn:E; [done|].
    assert ((r, spot) ∈ filter (fun f => occupied_with_id sid f = true)
                          (all_spots levels)) as Hin by (rewrite E; left).
    apply list_elem_of_filter in Hin as [Hocc Hin].
    apply occupied_with_id_spec in Hocc as [Hid [w Hw]].
    apply elem_of_all_spots in Hin. simpl in *.
    rewrite (Hall r spot Hin Hid) in Hw. done.
Qed.

(** [unpark_vehicle] answers "Spot not found or already empty" exactly
    when no occupied spot of the lot has the given id, and then the
    controller is left as it was. *)
Theorem unpark_vehicle_not_found sid c c' :
  unpark_vehicle sid c = (not_found_message, c')
  <-> (forall r spot, lookup_spot (parking_lot c) r = Some spot ->
         spot_id spot = sid -> vehicle spot = None)
      /\ c' = c.
Proof.
  rewrite <- unpark_levels_none. split.
  - destruct (unpark_levels sid 0 (parking_lot c)) as [[r spot]|] eqn:Hu.
    + rewrite (unpark_vehicle_found _ _ _ _ Hu). unfold removed_message.
      simpl. intros [=].
    + rewrite (unpark_vehicle_none _ _ Hu). by intros [= <-].
  - intros [Hu ->]. by apply unpark_vehicle_none.
Qed.

Lemma head_filter_Some {A : Type} (P : A -> Prop) `{forall x, Decision (P x)}
    (l : list A) (x : A) :
  head (filter P l) = Some x ->
  P x /\ exists l1 l2, l = l1 ++ x :: l2 /\ Forall (fun y => ~ P y) l1.
Proof.
  induction l as [|y l IH]; [done|]. rewrite filter_cons.
  destruct (decide (P y)) as [Hy|Hy].
  - intros [= ->]. split; [done|]. exists [], l. by split.
  - intros Hh. destruct (IH Hh) as (Hx & l1 & l2 & -> & Hall).
    split; [done|]. exists (y :: l1), l2. split; [done|]. by constructor.
Qed.

(** Otherwise [unpark_vehicle] empties the first occupied spot with the
    given id, in declaration order, reports the plate of the vehicle that
    stood there, and leaves every other spot as it was. *)
Theorem unpark_vehicle_first_occupied sid c msg c' :
  unpark_vehicle sid c = (msg, c') ->
  msg <> not_found_message ->
  exists r spot w l1 l2,
    all_spots (parking_lot c) = l1 ++ (r, spot) :: l2
    /\ Forall (fun g => occupied_with_id sid g = false) l1
    /\ spot_id spot = sid /\ vehicle spot = Some w
    /\ msg = removed_message (license_plate w) sid
    /\ allocation_strategy c' = allocation_strategy c
    /\ lookup_spot (parking_lot c') r = Some (spot_remove_vehicle spot)
    /\ forall r', r' <> r ->
         lookup_spot (parking_lot c') r' = lookup_spot (parking_lot c) r'.
Proof.
  destruct (unpark_levels sid 0 (parking_lot c)) as [[r spot]|] eqn:Hu.
  - rewrite (unpark_vehicle_found _ _ _ _ Hu). intros [= <- <-] _.
    rewrite unpark_levels_flat in Hu. fold (all_spots (parking_lot c)) in Hu.
    apply head_filter_Some in Hu as (Hocc & l1 & l2 & Hall & Hl1).
    apply occupied_with_id_spec in Hocc as [Hid [w Hw]]. simpl in Hid, Hw.
    exists r, spot, w, l1, l2. rewrite Hw. cbn [from_option parking_lot allocation_strategy].
    assert (lookup_spot (parking_lot c) r = Some spot) as Hl.
    { apply elem_of_all_spots. rewrite Hall. apply elem_of_app. right. left. }
    split_and!; [done| |done|done|done|done| |].
    + eapply Forall_impl; [exact Hl1|]. intros g Hg. by apply not_true_is_false.
    + rewrite lookup_update_spot, decide_True by done. by rewrite Hl.
    + intros r' Hr'. rewrite lookup_update_spot. by rewrite decide_False.
  - rewrite (unpark_vehicle_none _ _ Hu). by intros [= <- <-] ?.
Qed.

Lemma unpark_vehicle_first_occupied_witness :
  unpark_vehicle "A1"
    (mkController
       (update_spot (spot_park_vehicle (mkVehicle Car "ABC123")) (0, 0) usage_lot)
       FirstAvailableStrategy)
  = ("Vehicle ABC123 removed from spot A1",
     mkController usage_lot FirstAvailableStrategy)
  /\ "Vehicle ABC123 removed from spot A1" <> not_found_message
  /\ exists r spot w l1 l2,
       all_spots
         (update_spot (spot_park_vehicle (mkVehicle Car "ABC123")) (0, 0) usage_lot)
       = l1 ++ (r, spot) :: l2
       /\ Forall (fun g => occupied_with_id "A1" g = false) l1
       /\ spot_id spot = "A1" /\ vehicle spot = Some w
       /\ "Vehicle ABC123 removed from spot A1" = removed_message (license_plate w) "A1"
       /\ FirstAvailableStrategy = FirstAvailableStrategy
       /\ lookup_spot usage_lot r = Some (spot_remove_vehicle spot)
       /\ forall r', r' <> r ->
            lookup_spot usage_lot r'
            = lookup_spot
                (update_spot (spot_park_vehicle (mkVehicle Car "ABC123")) (0, 0)
                   usage_lot) r'.
Proof.
  assert (unpark_vehicle "A1"
            (mkController
               (update_spot (spot_park_vehicle (mkVehicle Car "ABC123")) (0, 0)
                  usage_lot)
               FirstAvailableStrategy)
          = ("Vehicle ABC123 removed from spot A1",
             mkController usage_lot FirstAvailableStrategy)) as Hu
    by (vm_compute; reflexivity).
  assert ("Vehicle ABC123 removed from spot A1" <> not_found_message) as Hm
    by discriminate.
  split_and!; [exact Hu|exact Hm|].
  exact (unpark_vehicle_first_occupied _ _ _ _ Hu Hm).
Defined.

End ParkingUnpark.

Section ParkingRelease.
Import Parking.
Implicit Types (v : Vehicle) (levels : list ParkingLevel)
  (f : nat * nat * ParkingSpot) (s : Strategy) (c : ParkingLotController).

Lemma park_unpark_round_trip_witness :
  find_spot BestFitStrategy (mkVehicle Car "ABC123") usage_lot
  = Ok (Some ((0, 0), ParkingSpot_init "A1" "compact" 10))
  /\ (forall g, g ∈ all_spots usage_lot -> spot_id g.2 = "A1" -> vehicle g.2 = None)
  /\ exists c1,
       park_vehicle (mkVehicle Car "ABC123") (mkController usage_lot BestFitStrategy)
       = Ok (parked_message (mkVehicle Car "ABC123")
               (ParkingSpot_init "A1" "compact" 10), c1)
       /\ unpark_vehicle "A1" c1
          = (removed_message "ABC123" "A1", mkController usage_lot BestFitStrategy).
Proof.
  assert (find_spot BestFitStrategy (mkVehicle Car "ABC123") usage_lot
          = Ok (Some ((0, 0), ParkingSpot_init "A1" "compact" 10))) as Hf
    by (vm_compute; reflexivity).
  assert (forall g, g ∈ all_spots usage_lot -> spot_id g.2 = "A1" -> vehicle g.2 = None)
    as Hids.
  { intros g Hg _. vm_compute in Hg.
    repeat (apply elem_of_cons in Hg as [->|Hg]; [reflexivity|]).
    by apply elem_of_nil in Hg. }
  split_and!; [exact Hf|exact Hids|].
  exact (park_unpark_round_trip _ _ _ _ Hf Hids).
Defined.

Lemma NoDup_fmap_eq {A B : Type} (g : A -> B) (l : list A) (x y : A) :
  NoDup (g <$> l) -> x ∈ l -> y ∈ l -> g x = g y -> x = y.
Proof.
  induction l as [|z l IH]; [by intros _ ?%elem_of_nil|].
  rewrite fmap_cons, NoDup_cons, !elem_of_cons.
  intros [Hz Hnd] [->|Hx] [->|Hy] Heq; try done.
  - exfalso. apply Hz. rewrite Heq. by apply list_elem_of_fmap_2.
  - exfalso. apply Hz. rewrite <- Heq. by apply list_elem_of_fmap_2.
  - by apply IH.
Qed.

(** When the spots of the lot have pairwise distinct ids, a spot cannot be
    released twice: whatever the first [unpark_vehicle] did, a second call
    with the same id answers "Spot not found or already empty" and changes
    nothing. *)
Theorem unpark_vehicle_twice sid c :
  NoDup ((fun g => spot_id g.2) <$> all_spots (parking_lot c)) ->
  unpark_vehicle sid (unpark_vehicle sid c).2
  = (not_found_message, (unpark_vehicle sid c).2).
Proof.
  intros Hnd. apply unpark_vehicle_none, unpark_levels_none.
  destruct (unpark_levels sid 0 (parking_lot c)) as [[r spot]|] eqn:Hu.
  - rewrite (unpark_vehicle_found _ _ _ _ Hu). cbn [snd parking_lot].
    rewrite unpark_levels_flat in Hu. fold (all_spots (parking_lot c)) in Hu.
    apply head_filter_Some in Hu as (Hocc & l1 & l2 & Hall & _).
    apply occupied_with_id_spec in Hocc as [Hid _]. simpl in Hid.
    assert ((r, spot) ∈ all_spots (parking_lot c)) as Hin.
    { rewrite Hall. apply elem_of_app. right. left. }
    intros r' spot'. rewrite lookup_update_spot. case_decide as Hr.
    + subst r'. apply elem_of_all_spots in Hin. rewrite Hin. by intros [= <-].
    + intros Hl' Hid'. apply elem_of_all_spots in Hl'. exfalso. apply Hr.
      assert ((r', spot') = (r, spot)) as Heq.
      { apply (NoDup_fmap_eq (fun g => spot_id g.2) _ _ _ Hnd Hl' Hin).
        simpl. congruence. }
      congruence.
  - rewrite (unpark_vehicle_none _ _ Hu). cbn [snd]. by apply unpark_levels_none.
Qed.

Lemma unpark_vehicle_twice_witness :
  NoDup ((fun g => spot_id g.2)
           <$> all_spots
                 (parking_lot
                    (mkController
                       (update_spot (spot_park_vehicle (mkVehicle Car "ABC123"))
                          (0, 0) usage_lot)
                       FirstAvailableStrategy)))
  /\ unpark_vehicle "A1"
       (unpark_vehicle "A1"
          (mkController
             (update_spot (spot_park_vehicle (mkVehicle Car "ABC123")) (0, 0)
                usage_lot)
             FirstAvailableStrategy)).2
     = (not_found_message,
        (unpark_vehicle "A1"
           (mkController
              (update_spot (spot_park_vehicle (mkVehicle Car "ABC123")) (0, 0)
                 usage_lot)
              FirstAvailableStrategy)).2).
Proof.
  assert (NoDup ((fun g => spot_id g.2)
                   <$> all_spots
                         (parking_lot
                            (mkController
                               (update_spot
                                  (spot_park_vehicle (mkVehicle Car "ABC123"))
                                  (0, 0) usage_lot)
                               FirstAvailableStrategy)))) as Hnd.
  { apply (bool_decide_unpack _). vm_compute. exact I. }
  split; [exact Hnd|]. exact (unpark_vehicle_twice "A1" _ Hnd).
Defined.

End ParkingRelease.

(** ** Provisioning the parking lot *)

Section ParkingProvision.
Import Parking.
Implicit Types (levels : list ParkingLevel) (lid sid sz : string) (d : Z).

(** [add_parking_spot] puts the new spot under a reference that was
    unused, in a level with the given id, and keeps every spot of the lot
    under the reference it had. *)
Theorem add_parking_spot_new_reference lid sid sz d levels :
  exists r,
    lookup_spot levels r = None
    /\ lookup_spot (add_parking_spot_levels lid sid sz d levels) r
       = Some (ParkingSpot_init sid sz d)
    /\ level_id <$> add_parking_spot_levels lid sid sz d levels !! r.1 = Some lid
    /\ forall r', r' <> r ->
         lookup_spot (add_parking_spot_levels lid sid sz d levels) r'
         = lookup_spot levels r'.
Proof.
  induction levels as [|level rest IH].
  - exists (0, 0). split_and!; [done..|].
    intros [[|a] [|b]] Hr; try done.
  - cbn [add_parking_spot_levels].
    destruct (String.eqb_spec (level_id level) lid) as [Heq|Hne].
    + exists (0, length (spots level)). unfold lookup_spot. cbn [fst snd lookup].
      simpl. split_and!.
      * by apply lookup_ge_None_2.
      * by rewrite list_lookup_middle.
      * by rewrite Heq.
      * intros [[|a] b] Hr; [|done]. simpl.
        destruct (decide (b < length (spots level))) as [Hlt|Hge].
        { by rewrite lookup_app_l. }
        assert (b <> length (spots level)) by congruence.
        rewrite !lookup_ge_None_2; [done|lia|]. rewrite length_app. simpl. lia.
    + destruct IH as ([a b] & H1 & H2 & H3 & H4). exists (S a, b).
      split_and!; [done..|].
      intros [[|a'] b'] Hr; [done|]. apply (H4 (a', b')). congruence.
Qed.

Lemma add_parking_spot_levels_ids lid sid sz d levels :
  level_id <$> add_parking_spot_levels lid sid sz d levels
  = if decide (lid ∈ level_id <$> levels)
    then level_id <$> levels
    else (level_id <$> levels) ++ [lid].
Proof.
  induction levels as [|level rest IH].
  - cbn [add_parking_spot_levels fmap list_fmap].
    destruct (decide (lid ∈ [])) as [Hin|_]; [by apply elem_of_nil in Hin|done].
  - cbn [add_parking_spot_levels].
    destruct (String.eqb_spec (level_id level) lid) as [Heq|Hne].
    + rewrite !fmap_cons. cbn [add_spot level_id]. rewrite decide_True; [done|].
      rewrite Heq. left.
    + rewrite !fmap_cons, IH. case_decide as Hin.
      * rewrite decide_True; [done|]. by right.
      * rewrite decide_False; [done|]. rewrite not_elem_of_cons. split; [done|done].
Qed.

Lemma add_parking_spot_levels_NoDup lid sid sz d levels :
  NoDup (level_id <$> levels) ->
  NoDup (level_id <$> add_parking_spot_levels lid sid sz d levels).
Proof.
  intros Hnd. rewrite add_parking_spot_levels_ids. case_decide as Hin; [done|].
  apply NoDup_app. split_and!; [done| |apply NoDup_singleton].
  by intros x Hx ->%list_elem_of_singleton.
Qed.

Lemma filter_level_id_absent lid levels :
  lid ∉ level_id <$> levels -> filter (fun l => level_id l = lid) levels = [].
Proof.
  induction levels as [|level rest IH]; [done|].
  rewrite fmap_cons, not_elem_of_cons. intros [Hne Hnin].
  rewrite filter_cons, decide_False by done. by apply IH.
Qed.

Lemma add_parking_spot_levels_spots lid sid sz d levels lid' :
  NoDup (level_id <$> levels) ->
  mjoin (spots <$> filter (fun l => level_id l = lid')
                     (add_parking_spot_levels lid sid sz d levels))
  = mjoin (spots <$> filter (fun l => level_id l = lid') levels)
    ++ (if decide (lid = lid') then [ParkingSpot_init sid sz d] else []).
Proof.
  induction levels as [|level rest IH]; intros Hnd.
  - cbn [add_parking_spot_levels]. rewrite filter_cons. cbn [add_spot level_id].
    destruct (decide (lid = lid')); by rewrite ?filter_nil.
  - rewrite fmap_cons, NoDup_cons in Hnd. destruct Hnd as [Hhd Hnd].
    cbn [add_parking_spot_levels].
    destruct (String.eqb_spec (level_id level) lid) as [Heq|Hne].
    + rewrite !filter_cons. cbn [add_spot level_id]. subst lid.
      destruct (decide (level_id level = lid')) as [Hl|Hl].
      * rewrite (filter_level_id_absent lid' rest) by (by rewrite <- Hl).
        simpl. by rewrite !app_nil_r.
      * by rewrite app_nil_r.
    + rewrite !filter_cons. destruct (decide (level_id level = lid')) as [Hl|Hl].
      * rewrite !fmap_cons. simpl. rewrite IH by done. by rewrite app_assoc.
      * by apply IH.
Qed.

Lemma provision_snoc adds a c :
  provision (adds ++ [a]) c = add_parking_spot a.1.1.1 a.1.1.2 a.1.2 a.2 (provision adds c).
Proof. unfold provision. by rewrite foldl_app. Qed.

(** A lot built from an empty controller by [add_parking_spot] calls has
    pairwise distinct level ids, and the spots under a level id are
    exactly the spots that were added with this id, empty and in the
    order of the calls. *)
Theorem provision_levels (adds : list (string * string * string * Z)) (s : Strategy)
    (lid : string) :
  NoDup (level_id <$> parking_lot (provision adds (ParkingLotController_init s)))
  /\ mjoin (spots <$> filter (fun l => level_id l = lid)
                        (parking_lot (provision adds (ParkingLotController_init s))))
     = (fun a => ParkingSpot_init a.1.1.2 a.1.2 a.2)
         <$> filter (fun a => a.1.1.1 = lid) adds.
Proof.
  induction adds as [|a adds [IH1 IH2]] using rev_ind.
  - split; [constructor|done].
  - rewrite provision_snoc. cbn [add_parking_spot parking_lot]. split.
    + by apply add_parking_spot_levels_NoDup.
    + rewrite add_parking_spot_levels_spots by done.
      rewrite IH2, filter_app, fmap_app. f_equal.
      rewrite filter_cons, filter_nil. by case_decide.
Qed.

End ParkingProvision.

(** ** When [BestFitStrategy] raises *)

Section ParkingBestFitRaise.
Import Parking.
Implicit Types (v : Vehicle) (levels : list ParkingLevel)
  (f b : nat * nat * ParkingSpot) (l : list (nat * nat * ParkingSpot)).

Lemma best_fit_spots_fold v li si ss acc :
  best_fit_spots v li si ss acc
  = best_fit_fold (filter (fun f => free_fit BestFitStrategy v f = true)
                     (enum_spots li si ss)) acc.
Proof.
  revert si acc. induction ss as [|spot rest IH]; intros si acc; [done|].
  cbn [best_fit_spots enum_spots]. rewrite filter_cons.
  case_decide as E; [|apply not_true_is_false in E];
    unfold free_fit in E; cbn [snd can_fit] in E; rewrite E; [|apply IH].
  destruct acc as [[rb b]|]; cbn [best_fit_fold best_fit_step rbind snd].
  - destruct (is_better_spot spot b) as [[|]|e]; cbn [rbind]; [apply IH..|done].
  - apply IH.
Qed.

Lemma best_fit_fold_app l1 l2 acc :
  best_fit_fold (l1 ++ l2) acc
  = (let* a := best_fit_fold l1 acc in best_fit_fold l2 a).
Proof.
  revert acc. induction l1 as [|f l1 IH]; intros acc; [done|].
  cbn [app best_fit_fold]. destruct (best_fit_step acc f); cbn [rbind]; [apply IH|done].
Qed.

Lemma best_fit_levels_fold v li levels acc :
  best_fit_levels v li levels acc
  = best_fit_fold (filter (fun f => free_fit BestFitStrategy v f = true)
                     (enum_levels li levels)) acc.
Proof.
  revert li acc. induction levels as [|level rest IH]; intros li acc; [done|].
  cbn [best_fit_levels enum_levels].
  rewrite filter_app, best_fit_fold_app, best_fit_spots_fold.
  destruct (best_fit_fold _ acc); cbn [rbind]; [apply IH|done].
Qed.

Lemma is_better_spot_cases (spot b : ParkingSpot) :
  match is_better_spot spot b with
  | Ok _ => is_Some (size_priority (size spot)) /\ is_Some (size_priority (size b))
  | Raise (KeyError k) =>
      size_priority k = None /\ (k = size spot \/ k = size b)
  end.
Proof.
  unfold is_better_spot, size_priority_get.
  destruct (size_priority (size spot)) as [p|] eqn:Hp; cbn [rbind].
  - destruct (size_priority (size b)) as [q|] eqn:Hq; cbn [rbind]; eauto.
  - eauto.
Qed.

Lemma best_fit_fold_some_ok l b :
  (exists o, best_fit_fold l (Some b) = Ok o)
  <-> l = [] \/ (known_size b /\ Forall known_size l).
Proof.
  revert b. induction l as [|f l IH]; intros b.
  { split; [by left|]. intros _. by eexists. }
  cbn [best_fit_fold best_fit_step]. pose proof (is_better_spot_cases f.2 b.2) as Hc.
  destruct (is_better_spot f.2 b.2) as [better|[k]]; cbn [rbind].
  - destruct Hc as [Hf Hb].
    assert (known_size (if better then f else b)) as Hnew by by destruct better.
    assert (best_fit_fold l (if better then Some f else Some b)
            = best_fit_fold l (Some (if better then f else b))) as ->
      by by destruct better.
    rewrite IH. split.
    + intros [->|[_ Hl]]; right; split; try done; by constructor.
    + intros [?|[_ Hl]]; [done|]. right. split; [done|].
      by apply Forall_cons in Hl as [_ ?].
  - destruct Hc as [Hk Hor]. split; [by intros [o ?]|].
    intros [?|[Hb Hl]]; [done|]. apply Forall_cons in Hl as [Hf _].
    unfold known_size in *. destruct Hor as [->| ->].
    + rewrite Hk in Hf. by destruct Hf.
    + rewrite Hk in Hb. by destruct Hb.
Qed.

Lemma best_fit_fold_raise l acc k :
  best_fit_fold l acc = Raise (KeyError k) ->
  size_priority k = None
  /\ ((exists b, acc = Some b /\ size b.2 = k) \/ exists f, f ∈ l /\ size f.2 = k).
Proof.
  revert acc. induction l as [|f l IH]; intros acc; [done|].
  cbn [best_fit_fold]. destruct acc as [b|]; cbn [best_fit_step rbind].
  - pose proof (is_better_spot_cases f.2 b.2) as Hc.
    destruct (is_better_spot f.2 b.2) as [better|[k']]; cbn [rbind].
    + intros Hr. apply IH in Hr as [Hk Hor]. split; [done|].
      destruct Hor as [(b' & Hb' & Hs)|(g & Hg & Hs)].
      * destruct better; injection Hb' as <-.
        -- right. exists f. split; [left|done].
        -- left. by exists b.
      * right. exists g. split; [by right|done].
    + intros [= <-]. destruct Hc as [Hk [->| ->]]; (split; [done|]).
      * right. exists f. split; [left|done].
      * left. by exists b.
  - intros Hr. apply IH in Hr as [Hk Hor]. split; [done|]. right.
    destruct Hor as [(b' & [= <-] & Hs)|(g & Hg & Hs)].
    + exists f. split; [left|done].
    + exists g. split; [by right|done].
Qed.

(** [BestFitStrategy.find_spot] returns normally exactly when at most one
    spot is free and fits, or every free fitting spot has a size of the
    priority dictionary; a single free fitting spot is returned whatever
    its size; and a [KeyError] it raises carries the size of a free
    fitting spot that the dictionary lacks. *)
Theorem best_fit_raises_exactly v levels :
  ((exists o, find_spot BestFitStrategy v levels = Ok o)
   <-> length (candidates BestFitStrategy v levels) <= 1
       \/ Forall known_size (candidates BestFitStrategy v levels))
  /\ (forall f, candidates BestFitStrategy v levels = [f] ->
        find_spot BestFitStrategy v levels = Ok (Some f))
  /\ (forall k, find_spot BestFitStrategy v levels = Raise (KeyError k) ->
        size_priority k = None
        /\ exists f, f ∈ candidates BestFitStrategy v levels /\ size f.2 = k).
Proof.
  cbn [find_spot]. rewrite best_fit_levels_fold. fold (all_spots levels).
  fold (candidates BestFitStrategy v levels).
  destruct (candidates BestFitStrategy v levels) as [|f l] eqn:Hc.
  - split_and!; [|done|done]. split; [intros _; left; simpl; lia|by eexists].
  - split_and!.
    + cbn [best_fit_fold best_fit_step rbind]. rewrite best_fit_fold_some_ok. split.
      * intros [->|[Hf Hl]]; [left; simpl; lia|right; by constructor].
      * intros [Hlen|Hall].
        -- left. destruct l; [done|]. simpl in Hlen. lia.
        -- right. by apply Forall_cons in Hall.
    + by intros g [= -> ->].
    + intros k Hr. apply best_fit_fold_raise in Hr as [Hk Hor]. split; [done|].
      by destruct Hor as [(b & [=] & _)|Hin].
Qed.


End ParkingBestFitRaise.

(** ** Further properties of the locker manager *)

Section LockerFrame.
Import Lockers.
Implicit Types (st : State) (p : Package) (r : nat) (s : Strategy) (cid : string).

(** In every state reached from the initial one, no locker is recorded
    for two customers: the entries of [lockers_by_customer] point at
    pairwise different lockers. *)
Theorem index_injective (ops : list Op) (c1 c2 : string) r :
  lockers_by_customer (manager (run ops initial_state)) !! c1 = Some r ->
  lockers_by_customer (manager (run ops initial_state)) !! c2 = Some r ->
  c1 = c2.
Proof.
  assert (index_sound (run ops initial_state)) as Hs.
  { apply index_sound_run. intros c' r'. unfold initial_state. simpl.
    by rewrite lookup_empty. }
  intros H1 H2. apply Hs in H1. apply Hs in H2. congruence.
Qed.

Lemma index_injective_witness :
  lockers_by_customer (manager (run regular_ops initial_state)) !! "customer_2" = Some 1
  /\ "customer_2" = "customer_2".
Proof.
  assert (lockers_by_customer (manager (run regular_ops initial_state))
            !! "customer_2" = Some 1) as Hi by (vm_compute; reflexivity).
  split; [exact Hi|]. exact (index_injective regular_ops _ _ 1 Hi Hi).
Defined.

Lemma locker_description_alter (g : Locker -> Locker) r (h : list Locker) :
  (forall l, locker_description (g l) = locker_description l) ->
  locker_description <$> alter g r h = locker_description <$> h.
Proof.
  intros Hg. apply list_eq. intros i. rewrite !list_lookup_fmap, list_lookup_alter.
  case_decide as Hi; [|done]. subst i. destruct (h !! r); [|done]. simpl. by rewrite Hg.
Qed.

Lemma receive_package_description s p st :
  locker_description <$> heap (receive_package s p st).2
  = locker_description <$> heap st.
Proof.
  destruct (receive_package_cases s p st)
    as [(st1 & Ha & ->)|(r0 & st1 & Ha & Hav & ->)]; cbn [snd];
    apply allocate_locker_frame in Ha as (Hh & _ & _).
  - by rewrite Hh.
  - unfold store_package. cbn [heap]. rewrite Hh. by apply locker_description_alter.
Qed.

(** [receive_package] never touches a locker that holds a package, never
    changes the id or the size of a locker, and changes no index entry
    but the one of the package's customer. *)
Theorem receive_package_frame s p st :
  (forall r l pk, heap st !! r = Some l -> package l = Some pk ->
     heap (receive_package s p st).2 !! r = Some l)
  /\ locker_description <$> heap (receive_package s p st).2
     = locker_description <$> heap st
  /\ (forall c, c <> customer_id p ->
        lockers_by_customer (manager (receive_package s p st).2) !! c
        = lockers_by_customer (manager st) !! c).
Proof.
  destruct (receive_package_cases s p st)
    as [(st1 & Ha & ->)|(r0 & st1 & Ha & Hav & ->)]; cbn [snd].
  - apply allocate_locker_frame in Ha as (-> & -> & _). by split_and!.
  - apply allocate_locker_frame in Ha as (Hh & Hi & _).
    unfold store_package. cbn [heap manager lockers_by_customer]. rewrite Hh, Hi.
    split_and!.
    + intros r l pk Hl Hpk. rewrite list_lookup_alter_ne; [done|]. intros <-.
      apply available_lookup in Hav as (l' & Hl' & Hp'). congruence.
    + by apply locker_description_alter.
    + intros c Hc. by rewrite lookup_insert_ne.
Qed.

(** When the strategy finds no locker, [receive_package] answers "No
    available locker" and changes no locker, no index entry and no list of
    lockers. *)
Theorem receive_package_no_locker s p st :
  (allocate_locker s p st).1 = None ->
  (receive_package s p st).1 = no_locker_message
  /\ heap (receive_package s p st).2 = heap st
  /\ lockers_by_customer (manager (receive_package s p st).2)
     = lockers_by_customer (manager st)
  /\ pool (receive_package s p st).2 = pool st.
Proof.
  intros Hnone. pose proof (allocate_locker_dict s p st) as Hd.
  destruct (receive_package_cases s p st)
    as [(st1 & Ha & ->)|(r0 & st1 & Ha & _)];
    [|by rewrite Ha in Hnone].
  rewrite Ha in Hd. cbn [fst snd] in *.
  apply allocate_locker_frame in Ha as (Hh & Hi & _).
  split_and!; [done..|]. unfold pool.
  destruct Hd as [->|[k ->]]; [done|]. apply dict_getitem_pool.
Qed.

Lemma receive_package_no_locker_witness :
  (allocate_locker FirstAvailableStrategy (mkPackage MEDIUM "customer_3")
     (run regular_ops initial_state)).1 = None
  /\ (receive_package FirstAvailableStrategy (mkPackage MEDIUM "customer_3")
        (run regular_ops initial_state)).1 = no_locker_message.
Proof.
  assert ((allocate_locker FirstAvailableStrategy (mkPackage MEDIUM "customer_3")
             (run regular_ops initial_state)).1 = None) as Ha
    by (vm_compute; reflexivity).
  split; [exact Ha|]. exact (proj1 (receive_package_no_locker _ _ _ Ha)).
Defined.

Lemma dict_get_is_Some k (d : list (PackageSize * list nat)) :
  k ∈ d.*1 -> is_Some (dict_get k d).
Proof.
  intros Hin. destruct (dict_get k d) eqn:E; [by eexists|].
  by apply dict_get_None in E.
Qed.

Lemma dict_getitem_present k (d : list (PackageSize * list nat)) :
  (dict_getitem k d).2
  = if decide (k ∈ d.*1) then d else d ++ [(k, [])].
Proof.
  unfold dict_getitem. case_decide as Hin.
  - by destruct (dict_get_is_Some k d Hin) as [ls ->].
  - apply dict_get_None in Hin. by rewrite Hin.
Qed.

(** The side effect of a strategy: [MostAvailableStrategy] returns the
    manager as it found it; [FirstAvailableStrategy] adds the package's
    size as a new last key, with an empty list, when the size had no
    list, and changes nothing otherwise. *)
Theorem allocate_locker_side_effect p st :
  (allocate_locker MostAvailableStrategy p st).2 = st
  /\ heap (allocate_locker FirstAvailableStrategy p st).2 = heap st
  /\ lockers_by_customer (manager (allocate_locker FirstAvailableStrategy p st).2)
     = lockers_by_customer (manager st)
  /\ lockers_by_size (manager (allocate_locker FirstAvailableStrategy p st).2)
     = if decide (package_size p ∈ (lockers_by_size (manager st)).*1)
       then lockers_by_size (manager st)
       else lockers_by_size (manager st) ++ [(package_size p, [])].
Proof.
  split.
  - cbn [allocate_locker].
    rewrite (most_available_loop_keep_min (heap st) _ None).
    destruct (decide (lockers_by_size (manager st) = [])) as [He|Hne].
    { by rewrite He. }
    destruct (foldl_keep_min_first_min (neg_free_count (heap st)) _ Hne)
      as ([k ls] & -> & Hmin).
    cbn [fmap option_fmap option_map fst]. rewrite find_available_locker_spec.
    cbn [snd]. rewrite dict_getitem_present. rewrite decide_True.
    + by destruct st as [h [d i]].
    + apply list_elem_of_fmap. exists (k, ls). split; [done|].
      by eapply first_min_elem_of.
  - cbn [allocate_locker]. rewrite find_available_locker_spec.
    cbn [snd heap manager lockers_by_size lockers_by_customer].
    split_and!; [done|done|apply dict_getitem_present].
Qed.

End LockerFrame.

Section LockerRetrieve.
Import Lockers.
Implicit Types (st : State) (p : Package) (r : nat) (cid : string).

Lemma controller_retrieve_package_unknown cid st :
  lockers_by_customer (manager st) !! cid = None ->
  controller_retrieve_package cid st = (inr not_found_message, st).
Proof.
  intros Hi. unfold controller_retrieve_package, retrieve_package. by rewrite Hi.
Qed.

(** In every state reached from the initial one, [retrieve_package]
    answers "Package not found" exactly for a customer without an index
    entry, and then changes nothing; for a customer with an entry it
    returns the package in the recorded locker, which is a package of this
    customer, empties that locker, deletes the entry and touches no other
    locker. *)
Theorem retrieve_package_result (ops : list Op) cid :
  (lockers_by_customer (manager (run ops initial_state)) !! cid = None ->
   controller_retrieve_package cid (run ops initial_state)
   = (inr not_found_message, run ops initial_state))
  /\ (forall r,
        lockers_by_customer (manager (run ops initial_state)) !! cid = Some r ->
        exists l pk,
          heap (run ops initial_state) !! r = Some l
          /\ package l = Some pk /\ customer_id pk = cid
          /\ (controller_retrieve_package cid (run ops initial_state)).1 = inl pk
          /\ heap (controller_retrieve_package cid (run ops initial_state)).2 !! r
             = Some (Locker_retrieve_package l)
          /\ lockers_by_customer
               (manager (controller_retrieve_package cid (run ops initial_state)).2)
             = delete cid (lockers_by_customer (manager (run ops initial_state)))
          /\ forall r', r' <> r ->
               heap (controller_retrieve_package cid (run ops initial_state)).2 !! r'
               = heap (run ops initial_state) !! r').
Proof.
  split; [apply controller_retrieve_package_unknown|].
  assert (index_sound (run ops initial_state)) as Hs.
  { apply index_sound_run. intros c' r'. unfold initial_state. simpl.
    by rewrite lookup_empty. }
  intros r Hi. pose proof (Hs _ _ Hi) as Ho. unfold occupant in Ho.
  destruct (heap (run ops initial_state) !! r) as [l|] eqn:Hl; [|done].
  simpl in Ho. destruct (package l) as [pk|] eqn:Hp; [|done].
  injection Ho as Hc. exists l, pk.
  unfold controller_retrieve_package, retrieve_package. rewrite Hi, Hl.
  cbn [fst snd heap manager lockers_by_customer mbind option_bind]. rewrite Hp.
  split_and!; [done..| |done|].
  - by rewrite list_lookup_alter_eq, Hl.
  - intros r' Hr'. by rewrite list_lookup_alter_ne.
Qed.

Lemma retrieve_package_result_witness :
  lockers_by_customer (manager (run regular_ops initial_state)) !! "customer_2" = Some 1
  /\ exists l pk,
       heap (run regular_ops initial_state) !! 1 = Some l
       /\ package l = Some pk /\ customer_id pk = "customer_2"
       /\ (controller_retrieve_package "customer_2" (run regular_ops initial_state)).1
          = inl pk
       /\ heap (controller_retrieve_package "customer_2"
                  (run regular_ops initial_state)).2 !! 1
          = Some (Locker_retrieve_package l)
       /\ lockers_by_customer
            (manager (controller_retrieve_package "customer_2"
                        (run regular_ops initial_state)).2)
          = delete "customer_2"
              (lockers_by_customer (manager (run regular_ops initial_state)))
       /\ forall r', r' <> 1 ->
            heap (controller_retrieve_package "customer_2"
                    (run regular_ops initial_state)).2 !! r'
            = heap (run regular_ops initial_state) !! r'.
Proof.
  assert (lockers_by_customer (manager (run regular_ops initial_state))
            !! "customer_2" = Some 1) as Hi by (vm_compute; reflexivity).
  split; [exact Hi|].
  exact (proj2 (retrieve_package_result regular_ops "customer_2") 1 Hi).
Defined.

(** A package cannot be retrieved twice: whatever the first
    [retrieve_package] for a customer did, a second one answers "Package
    not found" and changes nothing. *)
Theorem retrieve_package_twice cid st :
  controller_retrieve_package cid (controller_retrieve_package cid st).2
  = (inr not_found_message, (controller_retrieve_package cid st).2).
Proof.
  apply controller_retrieve_package_unknown.
  unfold controller_retrieve_package, retrieve_package.
  destruct (lockers_by_customer (manager st) !! cid) as [r|] eqn:Hi; cbn [snd].
  - cbn [manager lockers_by_customer]. apply lookup_delete_eq.
  - done.
Qed.

End LockerRetrieve.

(** ** The lockers the manager knows *)

Section LockerPool.
Import Lockers.
Implicit Types (st : State) (p : Package) (r : nat) (s : Strategy)
  (d : list (PackageSize * list nat)).

Lemma pool_dict_append k r d :
  mjoin (snd <$> dict_append k r d) ≡ₚ mjoin (snd <$> d) ++ [r].
Proof.
  induction d as [|[k' ls] d IH]; [done|]. cbn [dict_append].
  destruct (decide (k' = k)) as [->|Hne]; rewrite !fmap_cons; cbn [snd mjoin list_join].
  - rewrite <- !app_assoc. apply Permutation_app_head, Permutation_app_comm.
  - rewrite IH. by rewrite app_assoc.
Qed.

Lemma provision_locker_heap lid sz st :
  heap (provision_locker lid sz st) = heap st ++ [mkLocker lid sz None].
Proof.
  unfold provision_locker, Locker_init, add_locker. cbn [heap manager].
  by rewrite list_lookup_middle.
Qed.

Lemma provision_locker_pool lid sz st :
  pool (provision_locker lid sz st) ≡ₚ pool st ++ [length (heap st)].
Proof.
  unfold pool, provision_locker, Locker_init, add_locker. cbn [heap manager].
  rewrite list_lookup_middle by done. cbn [manager lockers_by_size locker_size].
  apply pool_dict_append.
Qed.

Lemma step_pool_heap st (op : Op) :
  match op with
  | Provision lid sz =>
      heap (step st op) = heap st ++ [mkLocker lid sz None]
      /\ pool (step st op) ≡ₚ pool st ++ [length (heap st)]
  | _ =>
      locker_description <$> heap (step st op) = locker_description <$> heap st
      /\ pool (step st op) = pool st
  end.
Proof.
  destruct op as [lid sz|s p|cid]; cbn [step].
  - split; [apply provision_locker_heap|apply provision_locker_pool].
  - split; [apply receive_package_description|].
    pose proof (allocate_locker_dict s p st) as Hd. unfold receive_package.
    destruct (allocate_locker s p st) as [[r|] st1]; cbn [snd] in *;
      unfold pool; cbn [store_package manager lockers_by_size];
      (destruct Hd as [->|[k ->]]; [done|apply dict_getitem_pool]).
  - unfold controller_retrieve_package, retrieve_package.
    destruct (lockers_by_customer (manager st) !! cid) as [r|]; cbn [snd]; [|done].
    split; [|done]. cbn [heap]. by apply locker_description_alter.
Qed.

Lemma run_pool_heap (ops : list Op) st :
  locker_description <$> heap (run ops st)
  = (locker_description <$> heap st) ++ provisioned ops
  /\ pool (run ops st)
     ≡ₚ pool st ++ seq (length (heap st)) (length (provisioned ops)).
Proof.
  revert st. induction ops as [|op ops IH]; intros st.
  { simpl. by rewrite !app_nil_r. }
  cbn [run foldl]. fold (run ops (step st op)).
  destruct (IH (step st op)) as [IH1 IH2]. rewrite IH1, IH2.
  pose proof (step_pool_heap st op) as Hstep.
  destruct op as [lid sz|s p|cid]; cbn [provisioned].
  - destruct Hstep as [-> ->]. rewrite fmap_app, length_app. cbn [length].
    rewrite Nat.add_1_r. simpl. by rewrite <- !app_assoc.
  - destruct Hstep as [Hh ->]. rewrite Hh.
    apply (f_equal length) in Hh. rewrite !length_fmap in Hh. by rewrite Hh.
  - destruct Hstep as [Hh ->]. rewrite Hh.
    apply (f_equal length) in Hh. rewrite !length_fmap in Hh. by rewrite Hh.
Qed.

(** Receiving and retrieving packages never create, remove, rename or
    resize a locker: after any sequence of operations the lockers are,
    in order, the ones that were provisioned, with the ids and sizes
    given then. *)
Theorem lockers_are_provisioned (ops : list Op) :
  (fun l => (locker_id l, locker_size l)) <$> heap (run ops initial_state)
  = provisioned ops.
Proof.
  destruct (run_pool_heap ops initial_state) as [H _].
  unfold locker_description in H. by rewrite H.
Qed.

(** When every locker is added to the manager once, at its creation
    ([Provision] is [add_locker(Locker(lid, sz))]), then after any
    sequence of such additions, receives and retrieves the lists of
    [lockers_by_size] together hold every locker exactly once. *)
Theorem pool_holds_every_locker_once (ops : list Op) :
  pool (run ops initial_state) ≡ₚ seq 0 (length (heap (run ops initial_state)))
  /\ NoDup (pool (run ops initial_state))
  /\ forall r, r ∈ pool (run ops initial_state)
               <-> r < length (heap (run ops initial_state)).
Proof.
  destruct (run_pool_heap ops initial_state) as [Hh Hp].
  assert (length (heap (run ops initial_state)) = length (provisioned ops)) as Hlen.
  { apply (f_equal length) in Hh. by rewrite !length_fmap in Hh. }
  assert (pool (run ops initial_state)
          ≡ₚ seq 0 (length (heap (run ops initial_state)))) as Hperm.
  { by rewrite Hp, Hlen. }
  split_and!; [done| |].
  - rewrite Hperm. apply NoDup_seq.
  - intros r. rewrite Hperm, elem_of_seq. lia.
Qed.

End LockerPool.

(** ** How many managers a process has *)

Section LockerOneManager.
Import Lockers.
Implicit Types (w : World) (op : WorldOp).

Lemma one_manager_step w op :
  match _instance w with
  | None => managers w = []
  | Some r => r = 0 /\ length (managers w) = 1
  end ->
  match _instance (world_step w op) with
  | None => managers (world_step w op) = [] /\ world_step w op = w
  | Some r => r = 0 /\ length (managers (world_step w op)) = 1
  end.
Proof.
  intros Hw.
  assert (forall (A : Type) r' (dflt : A) (g : State -> A * State) w',
            match _instance w' with
            | None => managers w' = []
            | Some r => r = 0 /\ length (managers w') = 1
            end ->
            match _instance (on_manager r' dflt g w').2 with
            | None => managers (on_manager r' dflt g w').2 = []
                      /\ (on_manager r' dflt g w').2 = w'
            | Some r => r = 0 /\ length (managers (on_manager r' dflt g w').2) = 1
            end) as Hon.
  { intros A r' dflt g w' Hw'. destruct (on_manager_frame r' dflt g w') as [Hi Hlen].
    rewrite Hi, Hlen. destruct (_instance w') as [r|]; [done|].
    split.
    - apply nil_length_inv. by rewrite Hlen, Hw'.
    - unfold on_manager, view. by rewrite Hw'. }
  assert (match _instance (LockerManager_new w).2 with
          | None => False
          | Some r => r = 0 /\ length (managers (LockerManager_new w).2) = 1
          end) as Hnew.
  { unfold LockerManager_new. destruct (_instance w) as [r|] eqn:Hi; cbn [snd].
    - by rewrite Hi.
    - cbn [_instance managers]. by rewrite Hw. }
  destruct op as [s|lid sz|c p|c cid]; cbn [world_step].
  - rewrite LockerController_init_spec. cbn [snd].
    by destruct (_instance (LockerManager_new w).2).
  - destruct (LockerManager_new w) as [r1 w1]. cbn [snd] in Hnew.
    specialize (Hon unit r1 tt (fun st => (tt, provision_locker lid sz st)) w1).
    destruct (_instance w1) as [r|] eqn:Hi1; [|done].
    destruct (on_manager_frame r1 tt (fun st => (tt, provision_locker lid sz st)) w1)
      as [Hi _].
    rewrite Hi, Hi1 in *. by apply Hon.
  - by apply Hon.
  - by apply Hon.
Qed.

(** A process never has a second manager: after any sequence of
    operations there is no manager object as long as [_instance] is
    unset, and exactly one, the object [_instance] refers to, from then
    on. *)
Theorem one_manager (ops : list WorldOp) :
  match _instance (world_run ops initial_world) with
  | None => managers (world_run ops initial_world) = []
  | Some r => r = 0 /\ length (managers (world_run ops initial_world)) = 1
  end.
Proof.
  assert (forall w,
            match _instance w with
            | None => managers w = []
            | Some r => r = 0 /\ length (managers w) = 1
            end ->
            match _instance (world_run ops w) with
            | None => managers (world_run ops w) = []
            | Some r => r = 0 /\ length (managers (world_run ops w)) = 1
            end) as Hrun.
  { induction ops as [|op ops IH]; intros w Hw; [done|].
    cbn [world_run foldl]. apply IH.
    pose proof (one_manager_step w op Hw) as Hs.
    destruct (_instance (world_step w op)); [done|]. by destruct Hs. }
  by apply Hrun.
Qed.

End LockerOneManager.

(** ** The order in which lockers are handed out *)

Section LockerOrder.
Import Lockers.
Implicit Types (st : State) (p : Package) (r : nat) (s : Strategy) (k : PackageSize)
  (h : list Locker).

Lemma filter_ext_elem_of {A : Type} (P Q : A -> Prop)
    `{forall x, Decision (P x)} `{forall x, Decision (Q x)} (l : list A) :
  (forall x, x ∈ l -> P x <-> Q x) -> filter P l = filter Q l.
Proof.
  induction l as [|x l IH]; intros Hext; [done|]. rewrite !filter_cons.
  rewrite IH by (intros y Hy; apply Hext; by right).
  destruct (decide (P x)) as [HP|HP].
  - rewrite decide_True; [done|]. apply Hext; [left|done].
  - rewrite decide_False; [done|]. intros HQ. apply HP. apply Hext; [left|done].
Qed.

Lemma lockers_of_size_snoc h lid sz k :
  lockers_of_size (h ++ [mkLocker lid sz None]) k
  = lockers_of_size h k ++ (if decide (k = sz) then [length h] else []).
Proof.
  unfold lockers_of_size. rewrite length_app. cbn [length].
  rewrite Nat.add_1_r, seq_S, filter_app. cbn [plus]. f_equal.
  - apply filter_ext_elem_of. intros r Hr. apply elem_of_seq in Hr.
    rewrite lookup_app_l by lia. done.
  - rewrite filter_cons, filter_nil, list_lookup_middle by done.
    cbn [fmap option_fmap option_map locker_size].
    destruct (decide (k = sz)) as [->|Hne].
    + by rewrite decide_True.
    + rewrite decide_False; [done|]. congruence.
Qed.

Lemma lockers_of_size_alter (g : Locker -> Locker) r h k :
  (forall l, locker_size (g l) = locker_size l) ->
  lockers_of_size (alter g r h) k = lockers_of_size h k.
Proof.
  intros Hg. unfold lockers_of_size. rewrite length_alter.
  apply filter_ext_elem_of. intros i _. rewrite list_lookup_alter.
  case_decide as Hi; [|done]. subst i. destruct (h !! r) as [l|]; [|done].
  simpl. by rewrite Hg.
Qed.

Lemma by_size_step st (op : Op) :
  (forall k, default [] (dict_get k (lockers_by_size (manager st)))
             = lockers_of_size (heap st) k) ->
  forall k, default [] (dict_get k (lockers_by_size (manager (step st op))))
            = lockers_of_size (heap (step st op)) k.
Proof.
  intros Hinv k. destruct op as [lid sz|s p|cid]; cbn [step].
  - rewrite provision_locker_heap, lockers_of_size_snoc, <- Hinv.
    unfold provision_locker, Locker_init, add_locker. cbn [heap manager].
    rewrite list_lookup_middle by done. cbn [manager lockers_by_size locker_size].
    rewrite dict_append_get. destruct (decide (k = sz)) as [->|Hne]; [done|].
    by rewrite app_nil_r.
  - assert (default [] (dict_get k (lockers_by_size
                                      (manager (allocate_locker s p st).2)))
            = lockers_of_size (heap st) k) as Ha.
    { destruct (allocate_locker_dict s p st) as [->|[k' ->]]; [done|].
      by rewrite dict_getitem_get. }
    unfold receive_package.
    destruct (allocate_locker s p st) as [[r|] st1] eqn:E; cbn [snd] in *.
    + apply allocate_locker_frame in E as (Hh & _ & _).
      unfold store_package. cbn [heap manager lockers_by_size].
      rewrite Hh, lockers_of_size_alter by done. done.
    + apply allocate_locker_frame in E as (Hh & _ & _). by rewrite Hh.
  - unfold controller_retrieve_package, retrieve_package.
    destruct (lockers_by_customer (manager st) !! cid) as [r|]; cbn [snd]; [|done].
    cbn [heap manager lockers_by_size]. by rewrite lockers_of_size_alter.
Qed.

Lemma by_size_run (ops : list Op) st :
  (forall k, default [] (dict_get k (lockers_by_size (manager st)))
             = lockers_of_size (heap st) k) ->
  forall k, default [] (dict_get k (lockers_by_size (manager (run ops st))))
            = lockers_of_size (heap (run ops st)) k.
Proof.
  revert st. induction ops as [|op ops IH]; intros st Hinv; [done|].
  apply IH. by apply by_size_step.
Qed.

(** After any sequence of operations, [FirstAvailableStrategy] hands out
    the earliest created locker among the available lockers of the
    package's size, or nothing when there is none. *)
Theorem first_available_earliest_locker (ops : list Op) p :
  (allocate_locker FirstAvailableStrategy p (run ops initial_state)).1
  = head (filter (fun r => locker_available (heap (run ops initial_state)) r = true
                           /\ locker_size <$> heap (run ops initial_state) !! r
                              = Some (package_size p))
            (seq 0 (length (heap (run ops initial_state))))).
Proof.
  cbn [allocate_locker]. rewrite find_available_locker_spec. cbn [fst].
  rewrite (by_size_run ops initial_state) by done.
  unfold available_lockers, lockers_of_size. f_equal.
  induction (seq 0 (length (heap (run ops initial_state)))) as [|r l IH]; [done|].
  rewrite !filter_cons.
  destruct (decide (locker_size <$> heap (run ops initial_state) !! r
                    = Some (package_size p))) as [Hs|Hs].
  - rewrite filter_cons.
    destruct (decide (locker_available (heap (run ops initial_state)) r = true))
      as [Ha|Ha].
    + rewrite decide_True by done. by rewrite IH.
    + rewrite decide_False by (by intros [? _]). done.
  - rewrite decide_False by (by intros [_ ?]). done.
Qed.

End LockerOrder.

(** ** Allocating and releasing, in both allocators *)

Section RoundTrip.
Implicit Types (levels : list Parking.ParkingLevel) (v : Parking.Vehicle)
  (f : nat * nat * Parking.ParkingSpot).

(** After a vehicle was parked in a free spot whose id no occupied spot
    carries, the scan of [unpark_vehicle] for this id stops at that
    spot. *)
Lemma unpark_levels_after_park v levels f :
  Parking.lookup_spot levels f.1 = Some f.2 ->
  (forall g, g ∈ Parking.all_spots levels ->
     Parking.spot_id g.2 = Parking.spot_id f.2 -> Parking.vehicle g.2 = None) ->
  Parking.unpark_levels (Parking.spot_id f.2) 0
    (Parking.update_spot (Parking.spot_park_vehicle v) f.1 levels)
  = Some (f.1, Parking.spot_park_vehicle v f.2).
Proof.
  intros Hl Hids. rewrite unpark_levels_flat.
  fold (Parking.all_spots
          (Parking.update_spot (Parking.spot_park_vehicle v) f.1 levels)).
  rewrite all_spots_update.
  rewrite (filter_touch_only _ (Parking.spot_park_vehicle v) _ f); [done| | | |].
  - apply NoDup_all_spots.
  - destruct f as [r spot]. by apply elem_of_all_spots.
  - intros g Hg _ HQ. apply occupied_with_id_spec in HQ as [Hid [w Hw]].
    rewrite (Hids g Hg Hid) in Hw. done.
  - apply occupied_with_id_spec. split; [done|]. by exists v.
Qed.

(** C8 (amended). For the lockers: when [receive_package] finds a locker
    for the package, a following [retrieve_package] for the package's
    customer empties this locker, deletes the customer's index entry and
    leaves every locker, and so the set of free lockers, as it was before.
    For the parking lot, which keeps no owner index and releases by spot
    id: when the strategy selects a spot and no occupied spot carries its
    id, [park_vehicle] followed by [unpark_vehicle] with this id empties
    the spot again and gives back the lot as it was before. *)
Theorem allocate_release_round_trip :
  (forall s p st r st1,
     Lockers.allocate_locker s p st = (Some r, st1) ->
     Lockers.occupant (Lockers.receive_package s p st).2 r
     = Some (Lockers.customer_id p)
     /\ (Lockers.controller_retrieve_package (Lockers.customer_id p)
           (Lockers.receive_package s p st).2).1 = inl p
     /\ Lockers.locker_available
          (Lockers.heap
             (Lockers.controller_retrieve_package (Lockers.customer_id p)
                (Lockers.receive_package s p st).2).2) r = true
     /\ Lockers.lockers_by_customer
          (Lockers.manager
             (Lockers.controller_retrieve_package (Lockers.customer_id p)
                (Lockers.receive_package s p st).2).2)
          !! Lockers.customer_id p = None
     /\ Lockers.heap
          (Lockers.controller_retrieve_package (Lockers.customer_id p)
             (Lockers.receive_package s p st).2).2
        = Lockers.heap st
     /\ Lockers.free_lockers
          (Lockers.controller_retrieve_package (Lockers.customer_id p)
             (Lockers.receive_package s p st).2).2
        = Lockers.free_lockers st)
  /\ (forall s v levels f,
        Parking.find_spot s v levels = Ok (Some f) ->
        (forall g, g ∈ Parking.all_spots levels ->
           Parking.spot_id g.2 = Parking.spot_id f.2 -> Parking.vehicle g.2 = None) ->
        Parking.lookup_spot levels f.1 = Some f.2
        /\ Parking.vehicle f.2 = None
        /\ Parking.park_vehicle v (Parking.mkController levels s)
           = Ok (Parking.parked_message v f.2,
                 Parking.mkController
                   (Parking.update_spot (Parking.spot_park_vehicle v) f.1 levels) s)
        /\ Parking.lookup_spot
             (Parking.update_spot (Parking.spot_park_vehicle v) f.1 levels) f.1
           = Some (Parking.spot_park_vehicle v f.2)
        /\ Parking.unpark_vehicle (Parking.spot_id f.2)
             (Parking.mkController
                (Parking.update_spot (Parking.spot_park_vehicle v) f.1 levels) s)
           = (Parking.removed_message (Parking.license_plate v) (Parking.spot_id f.2),
              Parking.mkController levels s)).
Proof.
  split.
  - intros s p st r st1 Ha.
    destruct (receive_retrieve_round_trip s p st r st1 Ha)
      as (_ & H1 & _ & H2 & H3 & H4 & H5 & H6).
    by split_and!.
  - intros s v levels f Hf Hids.
    pose proof (find_spot_sound _ _ _ _ Hf) as Hc.
    apply elem_of_candidates in Hc as (Hl & Hfree & _).
    split_and!; [done|done| | |].
    + by rewrite (park_vehicle_found v (Parking.mkController levels s) f).
    + rewrite lookup_update_spot, decide_True by done. by rewrite Hl.
    + rewrite (unpark_vehicle_found _ _ f.1 (Parking.spot_park_vehicle v f.2));
        [|by apply unpark_levels_after_park].
      cbn [Parking.parking_lot Parking.allocation_strategy Parking.vehicle
             Parking.spot_park_vehicle from_option].
      rewrite (update_spot_undo _ _ _ _ f.2); [done|done|].
      destruct f as [r [sid sz d veh]]. cbn [snd Parking.vehicle] in *. by subst veh.
Qed.

Lemma allocate_release_round_trip_witness :
  Parking.find_spot Parking.ClosestToEntranceStrategy
    (Parking.mkVehicle Parking.Motorcycle "XYZ789") Parking.usage_lot
  = Ok (Some ((0, 1), Parking.ParkingSpot_init "A2" "large" 5))
  /\ (forall g, g ∈ Parking.all_spots Parking.usage_lot ->
        Parking.spot_id g.2 = "A2" -> Parking.vehicle g.2 = None)
  /\ Parking.unpark_vehicle "A2"
       (Parking.mkController
          (Parking.update_spot
             (Parking.spot_park_vehicle (Parking.mkVehicle Parking.Motorcycle "XYZ789"))
             (0, 1) Parking.usage_lot)
          Parking.ClosestToEntranceStrategy)
     = (Parking.removed_message "XYZ789" "A2",
        Parking.mkController Parking.usage_lot Parking.ClosestToEntranceStrategy).
Proof.
  assert (Parking.find_spot Parking.ClosestToEntranceStrategy
            (Parking.mkVehicle Parking.Motorcycle "XYZ789") Parking.usage_lot
          = Ok (Some ((0, 1), Parking.ParkingSpot_init "A2" "large" 5))) as Hf
    by (vm_compute; reflexivity).
  assert (forall g, g ∈ Parking.all_spots Parking.usage_lot ->
            Parking.spot_id g.2 = "A2" -> Parking.vehicle g.2 = None) as Hids.
  { intros g Hg _. vm_compute in Hg.
    repeat (apply elem_of_cons in Hg as [->|Hg]; [reflexivity|]).
    by apply elem_of_nil in Hg. }
  split_and!; [exact Hf|exact Hids|].
  exact (proj2 (proj2 (proj2 (proj2
    (proj2 allocate_release_round_trip _ _ _ _ Hf Hids))))).
Defined.

(** In a lot with two spots of id A1, the first one occupied, a car is
    parked in the second; [unpark_vehicle "A1"] then empties the first
    spot: the car stays where it was parked, and the free spots are not
    the ones from before the parking. *)
Lemma park_unpark_same_id_not_restored :
  Parking.free_spots Parking.same_id_lot = [(0, 1)]
  /\ exists c1 c2,
       Parking.park_vehicle (Parking.mkVehicle Parking.Car "DEF456")
         (Parking.mkController Parking.same_id_lot Parking.FirstAvailableStrategy)
       = Ok ("Vehicle DEF456 parked in spot A1", c1)
       /\ (Parking.vehicle <$> Parking.lookup_spot (Parking.parking_lot c1) (0, 1))
          = Some (Some (Parking.mkVehicle Parking.Car "DEF456"))
       /\ Parking.unpark_vehicle "A1" c1 = ("Vehicle ABC123 removed from spot A1", c2)
       /\ (Parking.vehicle <$> Parking.lookup_spot (Parking.parking_lot c2) (0, 1))
          = Some (Some (Parking.mkVehicle Parking.Car "DEF456"))
       /\ Parking.free_spots (Parking.parking_lot c2) = [(0, 0)]
       /\ Parking.free_spots (Parking.parking_lot c2)
          <> Parking.free_spots Parking.same_id_lot.
Proof.
  split; [vm_compute; reflexivity|]. do 2 eexists.
  split_and!; try (vm_compute; reflexivity).
  vm_compute. discriminate.
Qed.

End RoundTrip.
